(** * patch_doxyfile.py: the Doxyfile patcher of keyple-actions

    A shallow embedding of [actions/doxygen/scripts/patch_doxyfile.py] and
    the properties of its specification.

    Modelling choices.
    - A Python [str] is a [list ascii]: a sequence of 8-bit code points
      (the Latin-1 range).  On that range the character classes of [re]
      and of [str.strip] are given exactly: [\d] is [0-9], white space is
      [\t \n \v \f \r], [\x1c-\x1f], the blank, [\x85] and [\xa0], and
      lower-casing maps [A-Z] and [\xc0-\xde] (without [\xd7]) 32 places up.
    - The file store maps a path to the text that text-mode I/O exchanges
      with the program for it; byte encodings and the newline translation
      of the io layer lie below the model.  A path names a file: two paths
      that differ denote two files.
    - Each file carries a read and a write permission, so that the
      [except IOError] handlers of the source have something to catch.
    - Every call that touches the store is recorded in a trace.
    - Calls to [logger] only write to the log stream and are left out. *)

From Stdlib Require Import Ascii String List Bool Arith Lia.
From stdpp Require Import gmap strings.
Import ListNotations.

Local Open Scope list_scope.
Local Open Scope bool_scope.

(** ** Text *)

Module Text.

Abbreviation str := (list ascii).

(** A string literal of the source. *)
Definition L (s : string) : str := list_ascii_of_string s.

Definition code (c : ascii) : nat := nat_of_ascii c.

(** [\d], and [str.isdecimal] of one character. *)
Definition isdecimal (c : ascii) : bool :=
  (48 <=? code c) && (code c <=? 57).

(** [\s], and [str.isspace] of one character. *)
Definition isspace (c : ascii) : bool :=
  let n := code c in
  ((9 <=? n) && (n <=? 13)) || ((28 <=? n) && (n <=? 32))
  || (n =? 133) || (n =? 160).

(** [str.lower] of one character. *)
Definition tolower (c : ascii) : ascii :=
  let n := code c in
  if ((65 <=? n) && (n <=? 90))
     || ((192 <=? n) && (n <=? 222) && negb (n =? 215))
  then ascii_of_nat (n + 32) else c.

Definition newline : ascii := ascii_of_nat 10.

(** The double quote. *)
Definition dquote : ascii := ascii_of_nat 34.

Fixpoint lstrip (s : str) : str :=
  match s with
  | c :: s' => if isspace c then lstrip s' else s
  | [] => []
  end.

Definition rstrip (s : str) : str := rev (lstrip (rev s)).

(** [s.strip()] *)
Definition strip (s : str) : str := rstrip (lstrip s).

(** [s.startswith(old)] *)
Fixpoint startswith (old s : str) : bool :=
  match old, s with
  | [], _ => true
  | a :: old', b :: s' => Ascii.eqb a b && startswith old' s'
  | _ :: _, [] => false
  end.

(** The scan of [s.replace(old, new)] for a non-empty [old]: from left to
    right, an occurrence of [old] that starts at the current position is
    replaced and skipped as a whole ([skip] counts what is left of it to
    skip), any other character is kept. *)
Fixpoint replace_scan (old new : str) (skip : nat) (s : str) : str :=
  match s with
  | [] => []
  | c :: s' =>
      match skip with
      | S k => replace_scan old new k s'
      | O =>
          if startswith old s
          then new ++ replace_scan old new (length old - 1) s'
          else c :: replace_scan old new 0 s'
      end
  end.

(** [s.replace(old, new)], [old] not empty. *)
Definition replace (old new s : str) : str := replace_scan old new 0 s.

(** [f.readline()] on a file just opened: the text up to and including
    the first newline, all of it when there is none. *)
Fixpoint readline (s : str) : str :=
  match s with
  | [] => []
  | c :: s' => if Ascii.eqb c newline then [c] else c :: readline s'
  end.

(** [not s] *)
Definition is_empty (s : str) : bool :=
  match s with [] => true | _ :: _ => false end.

End Text.
Import Text.

(** ** The fragment of [re] the script uses *)

Module Re.

(** A set of characters: one item that matches a single character. *)
Inductive cset : Type :=
| Digit                 (* \d *)
| Space                 (* \s *)
| Lit (c : ascii)       (* the character c *)
| NotLit (c : ascii).   (* [^c] *)

Record flags : Type := { ignorecase : bool; multiline : bool }.

Definition no_flags : flags := {| ignorecase := false; multiline := false |}.

Definition same_char (f : flags) (a c : ascii) : bool :=
  if ignorecase f then Ascii.eqb (tolower a) (tolower c) else Ascii.eqb a c.

Definition cset_mem (f : flags) (cs : cset) (a : ascii) : bool :=
  match cs with
  | Digit => isdecimal a
  | Space => isspace a
  | Lit c => same_char f a c
  | NotLit c => negb (same_char f a c)
  end.

(** Patterns.  Repetition is only ever applied to a single-character item
    in the script, and this is what [Star] offers. *)
Inductive regex : Type :=
| Eps
| Chr (cs : cset)
| Seq (r1 r2 : regex)
| Opt (r : regex)               (* (?:r)? , greedy *)
| Star (cs : cset)              (* cs* , greedy *)
| Group (n : nat) (r : regex)   (* (r), the n-th capturing group *)
| Bol                           (* ^ *)
| Eol.                          (* $ *)

(** [cs+] *)
Definition Plus (cs : cset) : regex := Seq (Chr cs) (Star cs).

(** A run of literal characters. *)
Fixpoint lits (s : str) : regex :=
  match s with
  | [] => Eps
  | c :: s' => Seq (Chr (Lit c)) (lits s')
  end.

Declare Scope re_scope.
Delimit Scope re_scope with re.
Bind Scope re_scope with regex.
Infix "⋅" := Seq (at level 41, right associativity) : re_scope.

(** The captured groups, the latest first. *)
Abbreviation groups := (list (nat * str)).

(** A match object: where the match starts and ends, and its groups. *)
Record match_object : Type :=
  { m_start : nat; m_end : nat; m_groups : groups }.

Fixpoint lookup_group (g : groups) (n : nat) : option str :=
  match g with
  | [] => None
  | (i, w) :: g' => if i =? n then Some w else lookup_group g' n
  end.

(** [m.group(n)].  A group that took no part yields [None] in Python; it
    is the empty text here.  The two groups the script reads lie on the
    mandatory path of their patterns. *)
Definition group (m : match_object) (n : nat) : str :=
  default [] (lookup_group (m_groups m) n).

(** [^]: at the start of the text, and after a newline when MULTILINE.
    [pre] is the text before the position, reversed. *)
Definition at_bol (f : flags) (pre : str) : bool :=
  match pre with
  | [] => true
  | a :: _ => multiline f && Ascii.eqb a newline
  end.

(** [$]: at the end of the text and before a newline that ends the text;
    before every newline when MULTILINE. *)
Definition at_eol (f : flags) (rest : str) : bool :=
  match rest with
  | [] => true
  | a :: rest' => Ascii.eqb a newline && (multiline f || is_empty rest')
  end.

Section Matcher.
Context {R : Type}.

(** What is left to match after an item: it receives the text before
    the position (reversed), the text from the position on and the
    groups so far. *)
Abbreviation kont := (str → str → groups → option R).

(** Greedy repetition: the longest run first, then one character less
    each time the rest of the pattern fails. *)
Fixpoint star (f : flags) (cs : cset) (k : kont)
    (pre rest : str) (g : groups) : option R :=
  match rest with
  | a :: rest' =>
      if cset_mem f cs a then
        match star f cs k (a :: pre) rest' g with
        | Some res => Some res
        | None => k pre rest g
        end
      else k pre rest g
  | [] => k pre rest g
  end.

(** The backtracking matcher. *)
Fixpoint run (f : flags) (r : regex) (k : kont)
    (pre rest : str) (g : groups) : option R :=
  match r with
  | Eps => k pre rest g
  | Chr cs =>
      match rest with
      | a :: rest' => if cset_mem f cs a then k (a :: pre) rest' g else None
      | [] => None
      end
  | Seq r1 r2 => run f r1 (run f r2 k) pre rest g
  | Opt r1 =>
      match run f r1 k pre rest g with
      | Some res => Some res
      | None => k pre rest g
      end
  | Star cs => star f cs k pre rest g
  | Group n r1 =>
      run f r1
        (λ pre' rest' g',
           k pre' rest'
             ((n, firstn (length rest - length rest') rest) :: g'))
        pre rest g
  | Bol => if at_bol f pre then k pre rest g else None
  | Eol => if at_eol f rest then k pre rest g else None
  end.
End Matcher.

(** The match of [r] that starts at the position, if there is one. *)
Definition match_at (f : flags) (r : regex) (pre rest : str)
    : option match_object :=
  run f r
    (λ pre' _ g, Some {| m_start := length pre; m_end := length pre';
                         m_groups := g |})
    pre rest [].

(** [re.match(r, s, flags)] *)
Definition re_match (f : flags) (r : regex) (s : str) : option match_object :=
  match_at f r [] s.

Fixpoint search_from (f : flags) (r : regex) (pre rest : str)
    : option match_object :=
  match match_at f r pre rest with
  | Some m => Some m
  | None =>
      match rest with
      | [] => None
      | a :: rest' => search_from f r (a :: pre) rest'
      end
  end.

(** [re.search(r, s, flags)]: the match at the leftmost position that has
    one. *)
Definition re_search (f : flags) (r : regex) (s : str) : option match_object :=
  search_from f r [] s.

End Re.
Import Re.

(** ** The patterns of the script *)

(** [r'^\d+\.\d+\.\d+(?:\.\d+)?$'] *)
Definition version_pattern : regex :=
  (Bol ⋅ Plus Digit ⋅ Chr (Lit ".") ⋅ Plus Digit ⋅ Chr (Lit ".") ⋅ Plus Digit
   ⋅ Opt (Chr (Lit ".") ⋅ Plus Digit) ⋅ Eol)%re.

(** [r'PROJECT\s*\([^)]*VERSION\s+(\d+\.\d+\.\d+)[^)]*\)'] *)
Definition project_version_pattern : regex :=
  (lits (L "PROJECT") ⋅ Star Space ⋅ Chr (Lit "(") ⋅ Star (NotLit ")")
   ⋅ lits (L "VERSION") ⋅ Plus Space
   ⋅ Group 1 (Plus Digit ⋅ Chr (Lit ".") ⋅ Plus Digit ⋅ Chr (Lit ".")
              ⋅ Plus Digit)
   ⋅ Star (NotLit ")") ⋅ Chr (Lit ")"))%re.

(** [re.MULTILINE | re.IGNORECASE] *)
Definition project_version_flags : flags :=
  {| ignorecase := true; multiline := true |}.

(** [r'SET\s*\(VERSION_CPPFIX\s*"(\d+)"\s*\)'] *)
Definition cpp_fix_pattern : regex :=
  (lits (L "SET") ⋅ Star Space ⋅ Chr (Lit "(") ⋅ lits (L "VERSION_CPPFIX")
   ⋅ Star Space ⋅ Chr (Lit dquote) ⋅ Group 1 (Plus Digit) ⋅ Chr (Lit dquote)
   ⋅ Star Space ⋅ Chr (Lit ")"))%re.

(** [DoxyfileUpdater.validate_version] *)
Definition validate_version (version : str) : bool :=
  bool_decide (is_Some (re_match no_flags version_pattern version)).

(** ** The file store *)

Module Store.

Abbreviation path := string.

Record node : Type :=
  { data : str; readable : bool; writable : bool }.

(** A call that touched the store. *)
Inductive event : Type :=
| EvExists (p : path)               (* p.exists() *)
| EvRead (p : path)                 (* p.open('r') or p.read_text() *)
| EvWrite (p : path) (s : str).     (* p.write_text(s) *)

(** The files, and the calls so far, the latest first. *)
Record world : Type :=
  { files : gmap string node; trace : list event }.

(** The failures of the script, by the name the specification gives them. *)
Inductive error : Type :=
| SourceFileMissing (p : path)  (* FileNotFoundError, lines 42 and 74 *)
| TargetFileMissing             (* FileNotFoundError, line 126 *)
| VersionNotFound               (* VersionError, line 82 *)
| InvalidVersionFormat          (* VersionError, lines 94 and 113 *)
| EmptyProjectName              (* ValueError, line 54 *)
| ReadError                     (* IOError of a read, lines 48 and 76 *)
| WriteError.                   (* IOError, line 135 *)

Inductive result (A : Type) : Type :=
| Ok (a : A)
| Err (e : error).
Arguments Ok {A} a.
Arguments Err {A} e.

(** A computation of the script: it reads and changes the world, and
    returns or raises. *)
Definition M (A : Type) : Type := world → result A * world.

#[export] Instance M_ret : MRet M := λ A a w, (Ok a, w).

#[export] Instance M_bind : MBind M := λ A B k m w,
  match m w with
  | (Ok a, w') => k a w'
  | (Err e, w') => (Err e, w')
  end.

Definition raise {A : Type} (e : error) : M A := λ w, (Err e, w).

Definition log (ev : event) (w : world) : world :=
  {| files := files w; trace := ev :: trace w |}.

(** [p.exists()] *)
Definition path_exists (p : path) : M bool := λ w,
  (Ok (bool_decide (is_Some (files w !! p))), log (EvExists p) w).

(** Opening [p] for reading and taking its text; an [IOError] when the
    file is not there or may not be read. *)
Definition read_text (p : path) : M str := λ w,
  match files w !! p with
  | Some nd =>
      if readable nd then (Ok (data nd), log (EvRead p) w)
      else (Err ReadError, log (EvRead p) w)
  | None => (Err ReadError, log (EvRead p) w)
  end.

(** [p.write_text(s)]: the whole text of [p] becomes [s]; an [IOError],
    and no change, when the file may not be written.  A path with no
    file gets a new one. *)
Definition write_text (p : path) (s : str) : M unit := λ w,
  match files w !! p with
  | Some nd =>
      if writable nd then
        (Ok (),
         {| files := <[p := {| data := s; readable := readable nd;
                               writable := true |}]> (files w);
            trace := EvWrite p s :: trace w |})
      else (Err WriteError, log (EvWrite p s) w)
  | None =>
      (Ok (),
       {| files := <[p := {| data := s; readable := true;
                             writable := true |}]> (files w);
          trace := EvWrite p s :: trace w |})
  end.

Definition is_ioerror (e : error) : bool :=
  match e with ReadError | WriteError => true | _ => false end.

(** [try: m except IOError as e: raise e'] *)
Definition except_ioerror {A : Type} (m : M A) (e' : error) : M A := λ w,
  match m w with
  | (Err e, w') => if is_ioerror e then (Err e', w') else (Err e, w')
  | ok => ok
  end.

End Store.
Import Store.

(** ** The script *)

Definition PROJECT_VERSION : str := L "%PROJECT_VERSION%".
Definition PROJECT_NAME : str := L "%PROJECT_NAME%".

(** [DoxyfileUpdater._parse_project_name] *)
Definition _parse_project_name (readme_file : path) : M str :=
  found ← path_exists readme_file;
  if negb found then raise (SourceFileMissing readme_file) else
  first_line ←
    except_ioerror
      (text ← read_text readme_file; mret (strip (readline text)))
      ReadError;
  let project_name := strip (replace (L "#") [] first_line) in
  if is_empty project_name then raise EmptyProjectName else
  mret project_name.

(** [DoxyfileUpdater._parse_cmake_version] *)
Definition _parse_cmake_version (cmake_file : path) : M str :=
  found ← path_exists cmake_file;
  if negb found then raise (SourceFileMissing cmake_file) else
  content ← read_text cmake_file;
  match re_search project_version_flags project_version_pattern content with
  | None => raise VersionNotFound
  | Some version_match =>
      let version := group version_match 1 in
      let version :=
        match re_search no_flags cpp_fix_pattern content with
        | Some cpp_fix_match => version ++ L "." ++ group cpp_fix_match 1
        | None => version
        end in
      if negb (validate_version version) then raise InvalidVersionFormat else
      mret version
  end.

(** The truth value of an [Optional[str]]: [None] and the empty text are
    false. *)
Definition truthy (version : option str) : bool :=
  match version with
  | Some (_ :: _) => true
  | _ => false
  end.

(** [version] where the source has checked that it is not [None]. *)
Definition the (version : option str) : str := default [] version.

(** Lines 112 to 117 of [update_doxyfile]: the version to use. *)
Definition resolve_version (version : option str) : M str :=
  _ ← (if truthy version && negb (validate_version (the version))
       then raise InvalidVersionFormat else mret ());
  if negb (truthy version) then _parse_cmake_version "CMakeLists.txt"
  else mret (the version).

(** [DoxyfileUpdater.update_doxyfile] *)
Definition update_doxyfile (doxyfile_path : path) (version : option str)
    : M unit :=
  version ← resolve_version version;
  project_name ← _parse_project_name "README.md";
  found ← path_exists doxyfile_path;
  if negb found then raise TargetFileMissing else
  except_ioerror
    (content ← read_text doxyfile_path;
     let updated_content := replace PROJECT_VERSION version content in
     let updated_content := replace PROJECT_NAME project_name updated_content in
     write_text doxyfile_path updated_content)
    WriteError.

(** ** What a pattern matches *)

Module ReSpec.

(** [Matches f r pre w post g g']: between the text [pre] (reversed) and
    the text [post], the pattern [r] matches the text [w] and takes the
    groups from [g] to [g']. *)
Fixpoint Matches (f : flags) (r : regex) (pre w post : str) (g g' : groups)
    : Prop :=
  match r with
  | Eps => w = [] ∧ g' = g
  | Chr cs => ∃ a, w = [a] ∧ cset_mem f cs a = true ∧ g' = g
  | Seq r1 r2 =>
      ∃ w1 w2 g1, w = w1 ++ w2
        ∧ Matches f r1 pre w1 (w2 ++ post) g g1
        ∧ Matches f r2 (rev w1 ++ pre) w2 post g1 g'
  | Opt r1 => (w = [] ∧ g' = g) ∨ Matches f r1 pre w post g g'
  | Star cs => Forall (λ a, cset_mem f cs a = true) w ∧ g' = g
  | Group n r1 => ∃ g1, Matches f r1 pre w post g g1 ∧ g' = (n, w) :: g1
  | Bol => w = [] ∧ at_bol f pre = true ∧ g' = g
  | Eol => w = [] ∧ at_eol f post = true ∧ g' = g
  end.

(** [r] matches somewhere in [s]: a part [w] of it, after the text [a]. *)
Definition occurs_at (f : flags) (r : regex) (s a w : str) (g : groups)
    : Prop :=
  ∃ post, s = a ++ w ++ post ∧ Matches f r (rev a) w post [] g.

(** Every character of [w] is in the set [cs]. *)
Definition all_in (f : flags) (cs : cset) (w : str) : Prop :=
  Forall (λ a, cset_mem f cs a = true) w.

(** One or more decimal digits. *)
Definition digits (w : str) : Prop :=
  w ≠ [] ∧ Forall (λ a, isdecimal a = true) w.

(** Zero or more white-space characters. *)
Definition spaces (w : str) : Prop := Forall (λ a, isspace a = true) w.

(** [w] is [s], up to the case of letters when [f] ignores case. *)
Definition same_text (f : flags) (w s : str) : Prop :=
  Forall2 (λ a c, same_char f a c = true) w s.

Section Correct.
Context {R : Type}.
Implicit Types (k : str → str → groups → option R).

Lemma star_sound f cs k rest : ∀ pre g res,
  star f cs k pre rest g = Some res →
  ∃ w post, rest = w ++ post
    ∧ Forall (λ a, cset_mem f cs a = true) w
    ∧ k (rev w ++ pre) post g = Some res.
Proof.
  induction rest as [|a rest IH]; intros pre g res H; simpl in H.
  - exists [], []. auto.
  - destruct (cset_mem f cs a) eqn:Ha.
    + destruct (star f cs k (a :: pre) rest g) eqn:Hs.
      * injection H as ->.
        destruct (IH _ _ _ Hs) as (w & post & -> & Hw & Hk).
        exists (a :: w), post. split; [done|]. split; [by constructor|].
        simpl. by rewrite <- app_assoc.
      * exists [], (a :: rest). auto.
    + exists [], (a :: rest). auto.
Qed.

Lemma star_complete f cs k w : ∀ pre post g,
  Forall (λ a, cset_mem f cs a = true) w →
  is_Some (k (rev w ++ pre) post g) →
  is_Some (star f cs k pre (w ++ post) g).
Proof.
  induction w as [|a w IH]; intros pre post g Hw Hk.
  - simpl in *. destruct post as [|b post]; simpl; [done|].
    destruct (cset_mem f cs b); [|done].
    destruct (star f cs k (b :: pre) post g); [by eexists|done].
  - inversion Hw as [|? ? Ha Hw']; subst. simpl. rewrite Ha.
    simpl in Hk. rewrite <- app_assoc in Hk.
    destruct (IH (a :: pre) post g Hw' Hk) as [res ->]. by eexists.
Qed.

Lemma length_app_sub (w post : str) :
  firstn (length (w ++ post) - length post) (w ++ post) = w.
Proof.
  rewrite length_app, Nat.add_sub.
  rewrite firstn_app, Nat.sub_diag, firstn_all. simpl. apply app_nil_r.
Qed.

(** Whatever the matcher finds is a match. *)
Lemma run_sound f r : ∀ k pre rest g res,
  run f r k pre rest g = Some res →
  ∃ w post g', rest = w ++ post
    ∧ Matches f r pre w post g g'
    ∧ k (rev w ++ pre) post g' = Some res.
Proof.
  induction r as [|cs|r1 IH1 r2 IH2|r1 IH1|cs|n r1 IH1| |];
    intros k pre rest g res H; simpl in H.
  - exists [], rest, g. simpl. auto.
  - destruct rest as [|a rest]; [done|].
    destruct (cset_mem f cs a) eqn:Ha; [|done].
    exists [a], rest, g. simpl. eauto 6.
  - destruct (IH1 _ _ _ _ _ H) as (w1 & post1 & g1 & -> & M1 & H2).
    destruct (IH2 _ _ _ _ _ H2) as (w2 & post & g2 & -> & M2 & Hk).
    exists (w1 ++ w2), post, g2. split; [by rewrite <- app_assoc|].
    split; [simpl; eauto 8|]. by rewrite rev_app_distr, <- app_assoc.
  - destruct (run f r1 k pre rest g) eqn:H1.
    + injection H as ->.
      destruct (IH1 _ _ _ _ _ H1) as (w & post & g' & -> & M1 & Hk).
      exists w, post, g'. simpl. auto.
    + exists [], rest, g. simpl. auto.
  - destruct (star_sound _ _ _ _ _ _ _ H) as (w & post & -> & Hw & Hk).
    exists w, post, g. simpl. auto.
  - destruct (IH1 _ _ _ _ _ H) as (w & post & g' & -> & M1 & Hk).
    rewrite length_app_sub in Hk.
    exists w, post, ((n, w) :: g'). simpl. eauto.
  - destruct (at_bol f pre) eqn:Hb; [|done].
    exists [], rest, g. simpl. auto.
  - destruct (at_eol f rest) eqn:Hb; [|done].
    exists [], rest, g. simpl. auto.
Qed.

(** Where there is a match the rest of the pattern accepts, the matcher
    finds one. *)
Lemma run_complete f r : ∀ k pre w post g g',
  Matches f r pre w post g g' →
  is_Some (k (rev w ++ pre) post g') →
  is_Some (run f r k pre (w ++ post) g).
Proof.
  induction r as [|cs|r1 IH1 r2 IH2|r1 IH1|cs|n r1 IH1| |];
    intros k pre w post g g' HM Hk; simpl in HM; simpl.
  - by destruct HM as [-> ->].
  - destruct HM as (a & -> & Ha & ->). simpl. by rewrite Ha.
  - destruct HM as (w1 & w2 & g1 & -> & M1 & M2).
    rewrite <- app_assoc. eapply IH1; [exact M1|].
    eapply IH2; [exact M2|]. by rewrite rev_app_distr, <- app_assoc in Hk.
  - destruct HM as [[-> ->]|M1].
    + simpl in *. destruct (run f r1 k pre post g); [by eexists|done].
    + destruct (IH1 _ _ _ _ _ _ M1 Hk) as [res ->]. by eexists.
  - destruct HM as [Hw ->]. by apply star_complete.
  - destruct HM as (g1 & M1 & ->).
    eapply IH1; [exact M1|]. by rewrite length_app_sub.
  - destruct HM as (-> & Hb & ->). simpl. by rewrite Hb.
  - destruct HM as (-> & Hb & ->). simpl. by rewrite Hb.
Qed.
End Correct.

Lemma match_at_sound f r pre rest m :
  match_at f r pre rest = Some m →
  ∃ w post, rest = w ++ post
    ∧ Matches f r pre w post [] (m_groups m)
    ∧ m_start m = length pre ∧ m_end m = length pre + length w.
Proof.
  intros H. apply run_sound in H as (w & post & g' & -> & HM & Hk).
  injection Hk as <-. exists w, post. simpl.
  rewrite length_app, length_rev. auto with lia.
Qed.

Lemma match_at_complete f r pre w post g' :
  Matches f r pre w post [] g' → is_Some (match_at f r pre (w ++ post)).
Proof. intros HM. eapply run_complete; [exact HM|]. by eexists. Qed.

Lemma search_from_sound f r rest : ∀ pre m,
  search_from f r pre rest = Some m →
  ∃ a w post, rest = a ++ w ++ post
    ∧ Matches f r (rev a ++ pre) w post [] (m_groups m)
    ∧ m_start m = length pre + length a.
Proof.
  induction rest as [|c rest IH]; intros pre m H; simpl in H.
  - destruct (match_at f r pre []) eqn:Hm; [|done]. injection H as ->.
    apply match_at_sound in Hm as (w & post & Hw & HM & Hs & _).
    exists [], w, post. simpl. repeat split; [done..|lia].
  - destruct (match_at f r pre (c :: rest)) eqn:Hm.
    + injection H as ->.
      apply match_at_sound in Hm as (w & post & Hw & HM & Hs & _).
      exists [], w, post. simpl. repeat split; [done..|lia].
    + destruct (IH _ _ H) as (a & w & post & -> & HM & Hs).
      exists (c :: a), w, post. simpl in *. rewrite <- app_assoc. simpl.
      repeat split; [done..|lia].
Qed.

Lemma search_from_complete f r a : ∀ pre w post g,
  Matches f r (rev a ++ pre) w post [] g →
  is_Some (search_from f r pre (a ++ w ++ post)).
Proof.
  induction a as [|c a IH]; intros pre w post g HM; simpl in HM.
  - apply match_at_complete in HM as [m Hm]. simpl.
    destruct (w ++ post); simpl; rewrite Hm; by eexists.
  - simpl. destruct (match_at f r pre (c :: a ++ w ++ post)); [by eexists|].
    eapply IH. rewrite <- app_assoc in HM. exact HM.
Qed.

(** [re.search] finds a match exactly when the pattern matches somewhere,
    and what it returns is such a match. *)
Lemma re_search_sound f r s m :
  re_search f r s = Some m →
  ∃ a w, occurs_at f r s a w (m_groups m) ∧ m_start m = length a.
Proof.
  intros H. apply search_from_sound in H as (a & w & post & -> & HM & Hs).
  rewrite app_nil_r in HM. exists a, w. split; [by exists post|done].
Qed.

Lemma re_search_complete f r s a w g :
  occurs_at f r s a w g → is_Some (re_search f r s).
Proof.
  intros (post & -> & HM). eapply search_from_complete.
  rewrite app_nil_r. exact HM.
Qed.

Lemma re_search_None f r s :
  re_search f r s = None ↔ ∀ a w g, ¬ occurs_at f r s a w g.
Proof.
  split.
  - intros H a w g Ho. apply re_search_complete in Ho as [m Hm]. congruence.
  - intros H. destruct (re_search f r s) eqn:Hs; [|done].
    apply re_search_sound in Hs as (a & w & Ho & _). by destruct (H _ _ _ Ho).
Qed.

(** *** The items of the script's patterns *)

Lemma Matches_plus f cs pre w post g g' :
  Matches f (Plus cs) pre w post g g' ↔ w ≠ [] ∧ all_in f cs w ∧ g' = g.
Proof.
  unfold Plus, all_in. simpl. split.
  - intros (w1 & w2 & g1 & -> & (a & -> & Ha & ->) & Hw & ->).
    split; [done|]. split; [by constructor|done].
  - intros (Hne & Hw & ->). destruct w as [|a w]; [done|].
    inversion Hw; subst. exists [a], w, g. eauto 8.
Qed.

Lemma Matches_lits f s : ∀ pre w post g g',
  Matches f (lits s) pre w post g g' ↔ same_text f w s ∧ g' = g.
Proof.
  unfold same_text. induction s as [|c s IH]; intros pre w post g g'; simpl.
  - split.
    + intros [-> ->]. split; [constructor|done].
    + intros [H ->]. by inversion H.
  - split.
    + intros (w1 & w2 & g1 & -> & (a & -> & Ha & ->) & H2).
      apply IH in H2 as [H2 ->]. split; [by constructor|done].
    + intros [H ->]. inversion H as [|a ? w' ? Ha Hw']; subst.
      exists [a], w', g. split; [done|]. split; [eauto|]. apply IH. done.
Qed.

Lemma same_text_exact w s : same_text no_flags w s ↔ w = s.
Proof.
  unfold same_text. split.
  - induction 1 as [|a c w s Ha _ IH]; [done|].
    apply Ascii.eqb_eq in Ha. by subst.
  - intros ->. induction s; constructor; [apply Ascii.eqb_refl|done].
Qed.

End ReSpec.

(** ** The texts the script's patterns match *)

Module Shapes.
Import ReSpec.

(** [x.y.z], each part one or more digits. *)
Definition three_part (v : str) : Prop :=
  ∃ x y z, digits x ∧ digits y ∧ digits z ∧ v = x ++ L "." ++ y ++ L "." ++ z.

(** [D.D.D] or [D.D.D.D], each [D] one or more digits. *)
Definition version_shape (v : str) : Prop :=
  three_part v ∨ ∃ u n, three_part u ∧ digits n ∧ v = u ++ L "." ++ n.

(** A character that is no letter is matched by itself alone, whatever
    the flags. *)
Definition uncased (c : ascii) : Prop :=
  ∀ a, Ascii.eqb (tolower a) (tolower c) = true → a = c.

(** No closing parenthesis. *)
Definition no_rparen (w : str) : Prop := Forall (λ a, a ≠ ")"%char) w.

(** A declaration [PROJECT(... VERSION x.y.z ...)] with the value [v]. *)
Definition project_declaration (d v : str) : Prop :=
  ∃ kw ws a vkw ws1 b,
    d = kw ++ ws ++ L "(" ++ a ++ vkw ++ ws1 ++ v ++ b ++ L ")"
    ∧ same_text project_version_flags kw (L "PROJECT")
    ∧ spaces ws ∧ no_rparen a
    ∧ same_text project_version_flags vkw (L "VERSION")
    ∧ (ws1 ≠ [] ∧ spaces ws1)
    ∧ three_part v ∧ no_rparen b.

(** A declaration [SET(VERSION_CPPFIX "n")]. *)
Definition cpp_fix_declaration (d n : str) : Prop :=
  ∃ ws ws1 ws2,
    d = L "SET" ++ ws ++ L "(" ++ L "VERSION_CPPFIX" ++ ws1
        ++ [dquote] ++ n ++ [dquote] ++ ws2 ++ L ")"
    ∧ spaces ws ∧ spaces ws1 ∧ digits n ∧ spaces ws2.

Lemma three_part_intro x y z :
  digits x → digits y → digits z → three_part (x ++ L "." ++ y ++ L "." ++ z).
Proof. intros. by exists x, y, z. Qed.

(** Taking a match of [r1 ⋅ r2] apart: [x] is what [r1] matched. *)
Ltac seq_step H H1 x :=
  let g1 := fresh "g" in
  let tl := fresh "tl" in
  destruct H as (x & tl & g1 & -> & H1 & H).

Lemma Matches_digits f pre w post g g' :
  Matches f (Plus Digit) pre w post g g' ↔ digits w ∧ g' = g.
Proof. rewrite Matches_plus. unfold digits, all_in. simpl. tauto. Qed.

Lemma Matches_spaces f pre w post g g' :
  Matches f (Star Space) pre w post g g' ↔ spaces w ∧ g' = g.
Proof. done. Qed.

Lemma Matches_uncased f c pre w post g g' :
  uncased c →
  Matches f (Chr (Lit c)) pre w post g g' ↔ w = [c] ∧ g' = g.
Proof.
  intros Hc. simpl. unfold same_char. split.
  - intros (a & -> & Ha & ->). split; [|done]. f_equal.
    destruct (ignorecase f); [by apply Hc|by apply Ascii.eqb_eq].
  - intros [-> ->]. exists c. repeat split.
    destruct (ignorecase f); apply Ascii.eqb_refl.
Qed.

Lemma uncased_dot : uncased ".".
Proof. intros [[] [] [] [] [] [] [] []]; vm_compute; congruence. Qed.
Lemma uncased_lparen : uncased "(".
Proof. intros [[] [] [] [] [] [] [] []]; vm_compute; congruence. Qed.
Lemma uncased_rparen : uncased ")".
Proof. intros [[] [] [] [] [] [] [] []]; vm_compute; congruence. Qed.
Lemma uncased_dquote : uncased dquote.
Proof. intros [[] [] [] [] [] [] [] []]; vm_compute; congruence. Qed.

Lemma Matches_dot f pre w post g g' :
  Matches f (Chr (Lit ".")) pre w post g g' ↔ w = L "." ∧ g' = g.
Proof. apply Matches_uncased, uncased_dot. Qed.

Lemma Matches_lparen f pre w post g g' :
  Matches f (Chr (Lit "(")) pre w post g g' ↔ w = L "(" ∧ g' = g.
Proof. apply Matches_uncased, uncased_lparen. Qed.

Lemma Matches_rparen f pre w post g g' :
  Matches f (Chr (Lit ")")) pre w post g g' ↔ w = L ")" ∧ g' = g.
Proof. apply Matches_uncased, uncased_rparen. Qed.

Lemma Matches_dquote f pre w post g g' :
  Matches f (Chr (Lit dquote)) pre w post g g' ↔ w = [dquote] ∧ g' = g.
Proof. apply Matches_uncased, uncased_dquote. Qed.

Lemma Matches_no_rparen f pre w post g g' :
  Matches f (Star (NotLit ")")) pre w post g g' ↔ no_rparen w ∧ g' = g.
Proof.
  simpl. unfold no_rparen. rewrite !Forall_forall.
  assert (Hc : ∀ a, negb (same_char f a ")") = true ↔ a ≠ ")"%char).
  { intros a. rewrite negb_true_iff, <- not_true_iff_false.
    pose proof (Matches_uncased f ")" [] [a] [] [] [] uncased_rparen) as Hu.
    simpl in Hu. split; intros Hn Ha; apply Hn.
    - subst. destruct Hu as [_ Hu].
      destruct Hu as (a & Ha & Hs & _); [done|]. by injection Ha as <-.
    - destruct Hu as [Hu _]. destruct Hu as [Hu _]; [by eexists|].
      by injection Hu. }
  split; intros [H ->]; (split; [|done]); intros a Ha; apply Hc, H, Ha.
Qed.

Lemma Matches_plus_spaces f pre w post g g' :
  Matches f (Plus Space) pre w post g g' ↔ (w ≠ [] ∧ spaces w) ∧ g' = g.
Proof. rewrite Matches_plus. unfold spaces, all_in. simpl. tauto. Qed.

Lemma Matches_seq f r1 r2 pre w1 w2 post g g1 g' :
  Matches f r1 pre w1 (w2 ++ post) g g1 →
  Matches f r2 (rev w1 ++ pre) w2 post g1 g' →
  Matches f (Seq r1 r2) pre (w1 ++ w2) post g g'.
Proof. intros. exists w1, w2, g1. auto. Qed.

(** Building a match of [r1 ⋅ r2] where [r1] matches [x] and takes no
    group. *)
Ltac seq_intro x :=
  match goal with
  | |- Matches _ _ _ _ _ ?g _ => apply (Matches_seq _ _ _ _ x _ _ g g)
  end.

Lemma Matches_three_part f pre w post g g' :
  Matches f (Plus Digit ⋅ Chr (Lit ".") ⋅ Plus Digit ⋅ Chr (Lit ".") ⋅ Plus Digit)
    pre w post g g' ↔ three_part w ∧ g' = g.
Proof.
  split.
  - intros H.
    seq_step H Hx x. apply Matches_digits in Hx as [Hx ->].
    seq_step H Hd d. apply Matches_dot in Hd as [-> ->].
    seq_step H Hy y. apply Matches_digits in Hy as [Hy ->].
    seq_step H Hd d. apply Matches_dot in Hd as [-> ->].
    apply Matches_digits in H as [Hz ->].
    split; [|done]. by apply three_part_intro.
  - intros [(x & y & z & Hx & Hy & Hz & ->) ->].
    repeat (apply Matches_seq with (g1 := g));
      first [by apply Matches_digits | by apply Matches_dot].
Qed.

Lemma version_pattern_Matches w post g g' :
  Matches no_flags version_pattern [] w post g g'
  ↔ version_shape w ∧ at_eol no_flags post = true ∧ g' = g.
Proof.
  unfold version_pattern. split.
  - intros H.
    seq_step H Hb b. destruct Hb as (-> & _ & ->).
    seq_step H Hx x. apply Matches_digits in Hx as [Hx ->].
    seq_step H Hd d. apply Matches_dot in Hd as [-> ->].
    seq_step H Hy y. apply Matches_digits in Hy as [Hy ->].
    seq_step H Hd d. apply Matches_dot in Hd as [-> ->].
    seq_step H Hz z. apply Matches_digits in Hz as [Hz ->].
    seq_step H Ho o. destruct H as (-> & He & ->).
    assert (H3 : three_part (x ++ L "." ++ y ++ L "." ++ z))
      by (by apply three_part_intro).
    rewrite !app_nil_r. change ([] ++ ?s) with s.
    destruct Ho as [[-> ->]|Ho].
    + rewrite app_nil_r. split; [by left|by split].
    + seq_step Ho Hd d. apply Matches_dot in Hd as [-> ->].
      apply Matches_digits in Ho as [Hn ->].
      split; [|by split]. right. exists (x ++ L "." ++ y ++ L "." ++ z), tl.
      split; [done|]. split; [done|]. by rewrite <- !app_assoc.
  - intros ([H3|(u & n & H3 & Hn & ->)] & He & ->);
      destruct H3 as (x & y & z & Hx & Hy & Hz & ->).
    + rewrite <- (app_nil_r z).
      seq_intro (@nil ascii); [done|].
      seq_intro x; [by apply Matches_digits|].
      seq_intro (L "."); [by apply Matches_dot|].
      seq_intro y; [by apply Matches_digits|].
      seq_intro (L "."); [by apply Matches_dot|].
      seq_intro z; [by apply Matches_digits|].
      seq_intro (@nil ascii); [by left|done].
    + rewrite <- !app_assoc. rewrite <- (app_nil_r n).
      seq_intro (@nil ascii); [done|].
      seq_intro x; [by apply Matches_digits|].
      seq_intro (L "."); [by apply Matches_dot|].
      seq_intro y; [by apply Matches_digits|].
      seq_intro (L "."); [by apply Matches_dot|].
      seq_intro z; [by apply Matches_digits|].
      rewrite app_assoc.
      seq_intro (L "." ++ n); [|done].
      right. seq_intro (L "."); [by apply Matches_dot|by apply Matches_digits].
Qed.

(** Under IGNORECASE two texts are the same when their lower-case forms
    are. *)
Lemma same_text_ignorecase w s :
  same_text project_version_flags w s ↔ map tolower w = map tolower s.
Proof.
  unfold same_text. split.
  - induction 1 as [|a c w s Ha _ IH]; [done|].
    unfold same_char in Ha. simpl in *. apply Ascii.eqb_eq in Ha. congruence.
  - revert s. induction w as [|a w IH]; intros [|c s] H; try done.
    injection H as Ha H. constructor; [|by apply IH].
    unfold same_char. simpl. by apply Ascii.eqb_eq.
Qed.

Lemma project_version_pattern_Matches pre w post g g' :
  Matches project_version_flags project_version_pattern pre w post g g'
  ↔ ∃ v, project_declaration w v ∧ g' = (1, v) :: g.
Proof.
  unfold project_version_pattern. split.
  - intros H.
    seq_step H Hk kw. apply Matches_lits in Hk as [Hk ->].
    seq_step H Hs ws. apply Matches_spaces in Hs as [Hs ->].
    seq_step H Hp lp. apply Matches_lparen in Hp as [-> ->].
    seq_step H Ha a. apply Matches_no_rparen in Ha as [Ha ->].
    seq_step H Hv vkw. apply Matches_lits in Hv as [Hv ->].
    seq_step H Hs1 ws1. apply Matches_plus_spaces in Hs1 as [Hs1 ->].
    seq_step H Hg v. destruct Hg as (g1 & Hg & ->).
    apply Matches_three_part in Hg as [Hg ->].
    seq_step H Hb b. apply Matches_no_rparen in Hb as [Hb ->].
    apply Matches_rparen in H as [-> ->].
    exists v. split; [|done]. by exists kw, ws, a, vkw, ws1, b.
  - intros (v & (kw & ws & a & vkw & ws1 & b & -> & Hk & Hs & Ha & Hv & Hs1
                 & H3 & Hb) & ->).
    seq_intro kw; [by apply Matches_lits|].
    seq_intro ws; [by apply Matches_spaces|].
    seq_intro (L "("); [by apply Matches_lparen|].
    seq_intro a; [by apply Matches_no_rparen|].
    seq_intro vkw; [by apply Matches_lits|].
    seq_intro ws1; [by apply Matches_plus_spaces|].
    apply (Matches_seq _ _ _ _ v _ _ g ((1, v) :: g));
      [exists g; split; [by apply Matches_three_part|done]|].
    seq_intro b; [by apply Matches_no_rparen|by apply Matches_rparen].
Qed.

Lemma cpp_fix_pattern_Matches pre w post g g' :
  Matches no_flags cpp_fix_pattern pre w post g g'
  ↔ ∃ n, cpp_fix_declaration w n ∧ g' = (1, n) :: g.
Proof.
  unfold cpp_fix_pattern. split.
  - intros H.
    seq_step H Hk kw. apply Matches_lits in Hk as [Hk ->].
    apply same_text_exact in Hk as ->.
    seq_step H Hs ws. apply Matches_spaces in Hs as [Hs ->].
    seq_step H Hp lp. apply Matches_lparen in Hp as [-> ->].
    seq_step H Hv vkw. apply Matches_lits in Hv as [Hv ->].
    apply same_text_exact in Hv as ->.
    seq_step H Hs1 ws1. apply Matches_spaces in Hs1 as [Hs1 ->].
    seq_step H Hq q. apply Matches_dquote in Hq as [-> ->].
    seq_step H Hg n. destruct Hg as (g1 & Hg & ->).
    apply Matches_digits in Hg as [Hg ->].
    seq_step H Hq q. apply Matches_dquote in Hq as [-> ->].
    seq_step H Hs2 ws2. apply Matches_spaces in Hs2 as [Hs2 ->].
    apply Matches_rparen in H as [-> ->].
    exists n. split; [|done]. by exists ws, ws1, ws2.
  - intros (n & (ws & ws1 & ws2 & -> & Hs & Hs1 & Hn & Hs2) & ->).
    seq_intro (L "SET"); [by apply Matches_lits; split; [apply same_text_exact|]|].
    seq_intro ws; [by apply Matches_spaces|].
    seq_intro (L "("); [by apply Matches_lparen|].
    seq_intro (L "VERSION_CPPFIX"); [by apply Matches_lits; split; [apply same_text_exact|]|].
    seq_intro ws1; [by apply Matches_spaces|].
    seq_intro [dquote]; [by apply Matches_dquote|].
    apply (Matches_seq _ _ _ _ n _ _ g ((1, n) :: g));
      [exists g; split; [by apply Matches_digits|done]|].
    seq_intro [dquote]; [by apply Matches_dquote|].
    seq_intro ws2; [by apply Matches_spaces|by apply Matches_rparen].
Qed.

End Shapes.

(** ** What [replace], [strip] and [readline] compute *)

Module TextFacts.
Import ReSpec Shapes.

(** [old] occurs in [s]. *)
Definition occurs (old s : str) : Prop := ∃ a b, s = a ++ old ++ b.

(** [Replaced old new s r]: [r] is [s] with the occurrences of [old]
    replaced by [new], taken from left to right, each one the first that
    starts after the one before has ended. *)
Inductive Replaced (old new : str) : str → str → Prop :=
| Replaced_none s :
    ¬ occurs old s → Replaced old new s s
| Replaced_first a b b' :
    (∀ a' c', a ++ old ++ b = a' ++ old ++ c' → length a ≤ length a') →
    Replaced old new b b' →
    Replaced old new (a ++ old ++ b) (a ++ new ++ b').

(** The text before the first newline. *)
Fixpoint first_line (s : str) : str :=
  match s with
  | [] => []
  | c :: s' => if Ascii.eqb c newline then [] else c :: first_line s'
  end.

(** [t] neither starts nor ends with white space. *)
Definition stripped (t : str) : Prop :=
  (∀ c t', t = c :: t' → isspace c = false)
  ∧ (∀ c t', t = t' ++ [c] → isspace c = false).

(** The heading marker. *)
Definition sharp : ascii := "#"%char.

Lemma startswith_iff old : ∀ s, startswith old s = true ↔ ∃ b, s = old ++ b.
Proof.
  induction old as [|a old IH]; intros s; simpl.
  - split; [by exists s|done].
  - destruct s as [|c s].
    + split; [done|]. by intros (b & ?).
    + rewrite andb_true_iff, Ascii.eqb_eq, IH. split.
      * intros [-> (b & ->)]. by exists b.
      * intros (b & Hb). injection Hb as -> ->. split; [done|by exists b].
Qed.

Lemma replace_scan_skip old new s : ∀ k,
  replace_scan old new k s = replace old new (skipn k s).
Proof.
  unfold replace. induction s as [|c s IH]; intros k.
  - by destruct k.
  - destruct k as [|k]; [done|]. simpl. apply IH.
Qed.

Lemma replace_hit old new b :
  old ≠ [] → replace old new (old ++ b) = new ++ replace old new b.
Proof.
  intros Hne. destruct old as [|c old]; [done|].
  unfold replace at 1. cbn [app replace_scan].
  assert (Hs : startswith (c :: old) (c :: old ++ b) = true)
    by (apply startswith_iff; by exists b).
  rewrite Hs, replace_scan_skip. cbn [length]. rewrite Nat.sub_succ, Nat.sub_0_r.
  by rewrite skipn_app, Nat.sub_diag, skipn_all.
Qed.

Lemma replace_miss old new c s :
  startswith old (c :: s) = false →
  replace old new (c :: s) = c :: replace old new s.
Proof. intros H. unfold replace. cbn [replace_scan]. by rewrite H. Qed.

Lemma Replaced_cons old new c s r :
  startswith old (c :: s) = false →
  Replaced old new s r → Replaced old new (c :: s) (c :: r).
Proof.
  intros Hs Hr.
  assert (Hno : ∀ b, c :: s ≠ old ++ b).
  { intros b Hb. apply not_true_iff_false in Hs. apply Hs.
    apply startswith_iff. by exists b. }
  destruct Hr as [s Hn|a b b' Hmin Hr].
  - apply Replaced_none. intros (a & b & Hab). destruct a as [|c' a].
    + by apply (Hno b).
    + injection Hab as -> ->. apply Hn. by exists a, b.
  - apply (Replaced_first old new (c :: a) b b'); [|done].
    intros a' c' Heq. destruct a' as [|c2 a'].
    + by destruct (Hno c').
    + injection Heq as _ Heq. simpl. apply Hmin in Heq. lia.
Qed.

(** [str.replace] replaces every occurrence, from left to right. *)
Lemma replace_Replaced old new s :
  old ≠ [] → Replaced old new s (replace old new s).
Proof.
  intros Hne. remember (length s) as n eqn:Hn.
  revert s Hn. induction n as [n IH] using lt_wf_ind. intros s ->.
  destruct s as [|c s].
  - apply Replaced_none. intros (a & b & Hab).
    destruct a, old; done.
  - destruct (startswith old (c :: s)) eqn:Hs.
    + apply startswith_iff in Hs as (b & Hb). rewrite Hb.
      rewrite replace_hit by done.
      apply (Replaced_first old new [] b); [simpl; lia|].
      apply (IH (length b)); [|done].
      rewrite Hb, length_app. destruct old; [done|]. simpl. lia.
    + rewrite replace_miss by done. apply Replaced_cons; [done|].
      apply (IH (length s)); [simpl; lia|done].
Qed.

(** And nothing else does. *)
Lemma Replaced_replace old new s r :
  old ≠ [] → Replaced old new s r → r = replace old new s.
Proof.
  intros Hne Hr. induction Hr as [s Hn|a b b' Hmin Hr IH].
  - induction s as [|c s IHs]; [done|].
    rewrite replace_miss.
    + f_equal. apply IHs. intros (a & b & ->). apply Hn.
      by exists (c :: a), b.
    + apply not_true_iff_false. intros (b & Hb)%startswith_iff.
      apply Hn. by exists [], b.
  - subst b'. induction a as [|c a IHa]; simpl.
    + by rewrite replace_hit.
    + rewrite replace_miss.
      * f_equal. apply IHa. intros a' c' Heq.
        specialize (Hmin (c :: a') c'). simpl in Hmin.
        rewrite Heq in Hmin. specialize (Hmin eq_refl). lia.
      * apply not_true_iff_false. intros (b2 & Hb)%startswith_iff.
        specialize (Hmin [] b2 Hb). simpl in Hmin. lia.
Qed.

Lemma replace_no_occurrence old new s :
  old ≠ [] → ¬ occurs old s → replace old new s = s.
Proof.
  intros Hne Hn. symmetry. apply Replaced_replace; [done|].
  by apply Replaced_none.
Qed.

(** Replacing a single character by nothing removes it everywhere. *)
Lemma replace_char_nil c s :
  replace [c] [] s = filter (λ a, a ≠ c) s.
Proof.
  induction s as [|a s IH]; [done|].
  destruct (decide (a = c)) as [->|Hac].
  - change (c :: s) with ([c] ++ s). rewrite replace_hit by done.
    simpl. rewrite IH. by rewrite filter_cons_False by (by intros []).
  - rewrite replace_miss.
    + by rewrite IH, filter_cons_True.
    + simpl. rewrite andb_true_r. apply Ascii.eqb_neq. congruence.
Qed.

Lemma lstrip_spaces ws x : spaces ws → lstrip (ws ++ x) = lstrip x.
Proof. induction 1 as [|c ws Hc _ IH]; simpl; [done|]. by rewrite Hc. Qed.

Lemma lstrip_all_spaces ws : spaces ws → lstrip ws = [].
Proof. intros H. rewrite <- (app_nil_r ws). by rewrite lstrip_spaces. Qed.

Lemma spaces_rev ws : spaces ws → spaces (rev ws).
Proof. apply Forall_rev. Qed.

Lemma rstrip_spaces x ws : spaces ws → rstrip (x ++ ws) = rstrip x.
Proof.
  intros H. unfold rstrip. rewrite rev_app_distr.
  by rewrite lstrip_spaces by (by apply spaces_rev).
Qed.

Lemma lstrip_decomp s : ∃ ws, spaces ws ∧ s = ws ++ lstrip s.
Proof.
  induction s as [|c s (ws & Hws & IH)]; simpl.
  - exists []. split; [constructor|done].
  - destruct (isspace c) eqn:Hc.
    + exists (c :: ws). split; [by constructor|]. simpl. by f_equal.
    + exists []. split; [constructor|done].
Qed.

Lemma rstrip_decomp s : ∃ ws, spaces ws ∧ s = rstrip s ++ ws.
Proof.
  destruct (lstrip_decomp (rev s)) as (ws & Hws & Hs).
  exists (rev ws). split; [by apply spaces_rev|].
  unfold rstrip. rewrite <- rev_app_distr, <- Hs. by rewrite rev_involutive.
Qed.

Lemma strip_spaces_l ws x : spaces ws → strip (ws ++ x) = strip x.
Proof. intros H. unfold strip. by rewrite lstrip_spaces. Qed.

Lemma strip_spaces_r x ws : spaces ws → strip (x ++ ws) = strip x.
Proof.
  intros H. unfold strip. induction x as [|c x IH]; simpl.
  - by rewrite lstrip_all_spaces.
  - destruct (isspace c); [done|].
    change (c :: x ++ ws) with ((c :: x) ++ ws). by apply rstrip_spaces.
Qed.

Lemma strip_decomp s :
  ∃ ws1 ws2, spaces ws1 ∧ spaces ws2 ∧ s = ws1 ++ strip s ++ ws2.
Proof.
  destruct (lstrip_decomp s) as (ws1 & H1 & Hs).
  destruct (rstrip_decomp (lstrip s)) as (ws2 & H2 & Hl).
  exists ws1, ws2. split; [done|]. split; [done|].
  unfold strip. by rewrite <- Hl.
Qed.

Lemma lstrip_no_space s c t : lstrip s = c :: t → isspace c = false.
Proof.
  induction s as [|a s IH]; simpl; [done|].
  destruct (isspace a) eqn:Ha; [done|]. by intros [= <- _].
Qed.

Lemma lstrip_suffix s : ∃ a, s = a ++ lstrip s.
Proof. destruct (lstrip_decomp s) as (ws & _ & H). by exists ws. Qed.

(** What [strip] returns has no white space at either end. *)
Lemma strip_stripped s : stripped (strip s).
Proof.
  unfold strip, rstrip. split.
  - intros c t Ht.
    destruct (lstrip_suffix (rev (lstrip s))) as (a & Ha).
    apply (f_equal (@rev ascii)) in Ha.
    rewrite rev_involutive, rev_app_distr, Ht in Ha.
    destruct (lstrip s) as [|c' l] eqn:Hl; [done|].
    simpl in Ha. injection Ha as -> _. by apply lstrip_no_space in Hl.
  - intros c t Ht. apply (f_equal (@rev ascii)) in Ht.
    rewrite rev_involutive, rev_app_distr in Ht. simpl in Ht.
    by apply lstrip_no_space in Ht.
Qed.

Lemma strip_id t : stripped t → strip t = t.
Proof.
  intros [Hl Hr]. unfold strip, rstrip.
  assert (H1 : lstrip t = t).
  { destruct t as [|c t]; [done|]. simpl. by rewrite (Hl c t). }
  rewrite H1. destruct (rev t) as [|c r] eqn:Hrev.
  - apply (f_equal (@rev ascii)) in Hrev. by rewrite rev_involutive in Hrev.
  - simpl. rewrite (Hr c (rev r)).
    + rewrite <- Hrev. apply rev_involutive.
    + apply (f_equal (@rev ascii)) in Hrev. by rewrite rev_involutive in Hrev.
Qed.

(** [strip] takes the white space off both ends, and nothing else. *)
Lemma strip_spec s t :
  strip s = t
  ↔ stripped t ∧ ∃ ws1 ws2, spaces ws1 ∧ spaces ws2 ∧ s = ws1 ++ t ++ ws2.
Proof.
  split.
  - intros <-. split; [apply strip_stripped|apply strip_decomp].
  - intros (Ht & ws1 & ws2 & H1 & H2 & ->).
    rewrite strip_spaces_l, strip_spaces_r by done. by apply strip_id.
Qed.

Lemma readline_first_line s :
  readline s = first_line s ∨ readline s = first_line s ++ [newline].
Proof.
  induction s as [|c s IH]; simpl; [by left|].
  destruct (Ascii.eqb c newline) eqn:Hc.
  - apply Ascii.eqb_eq in Hc as ->. by right.
  - destruct IH as [-> | ->]; [by left|by right].
Qed.

Lemma strip_readline s : strip (readline s) = strip (first_line s).
Proof.
  destruct (readline_first_line s) as [-> | ->]; [done|].
  apply strip_spaces_r. by repeat constructor.
Qed.

Lemma filter_spaces_sharp ws : spaces ws → filter (λ a, a ≠ sharp) ws = ws.
Proof.
  induction 1 as [|c ws Hc _ IH]; [done|].
  rewrite filter_cons_True; [by rewrite IH|].
  intros ->. done.
Qed.

(** The name as the script computes it, from the text of the readme. *)
Lemma project_name_of_first_line s :
  strip (replace (L "#") [] (strip (readline s)))
  = strip (filter (λ a, a ≠ sharp) (first_line s)).
Proof.
  rewrite strip_readline. change (L "#") with [sharp].
  rewrite replace_char_nil.
  destruct (strip_decomp (first_line s)) as (ws1 & ws2 & H1 & H2 & Hs).
  rewrite Hs at 2. rewrite !filter_app.
  rewrite (filter_spaces_sharp ws1), (filter_spaces_sharp ws2) by done.
  by rewrite strip_spaces_l, strip_spaces_r.
Qed.

End TextFacts.

(** ** Running the script *)

Module Run.
Import ReSpec Shapes TextFacts.

(** A file anyone may read and write. *)
Definition regular (s : str) : node :=
  {| data := s; readable := true; writable := true |}.

(** The world with the given regular files and no call made yet. *)
Definition world_of (fs : list (path * str)) : world :=
  {| files := list_to_map (map (λ '(p, s), (p, regular s)) fs); trace := [] |}.

(** The writes of a trace. *)
Fixpoint writes (t : list event) : list event :=
  match t with
  | [] => []
  | EvWrite p s :: t' => EvWrite p s :: writes t'
  | _ :: t' => writes t'
  end.

(** The path a call is about. *)
Definition event_path (ev : event) : path :=
  match ev with EvExists p | EvRead p | EvWrite p _ => p end.

(** Between [w] and [w'] no file has changed and nothing was written. *)
Definition unchanged (w w' : world) : Prop :=
  files w' = files w ∧ writes (trace w') = writes (trace w).

(** The name the script makes of the text of the readme. *)
Definition name_of (text : str) : str :=
  strip (replace (L "#") [] (strip (readline text))).

(** The version the script makes of the text of the build descriptor. *)
Definition version_of (content : str) : result str :=
  match re_search project_version_flags project_version_pattern content with
  | None => Err VersionNotFound
  | Some version_match =>
      let version := group version_match 1 in
      let version :=
        match re_search no_flags cpp_fix_pattern content with
        | Some cpp_fix_match => version ++ L "." ++ group cpp_fix_match 1
        | None => version
        end in
      if negb (validate_version version) then Err InvalidVersionFormat
      else Ok version
  end.

(** Lines 125 to 135: the rewrite of the target, once the version and the
    name are known. *)
Definition rewrite_run (p : path) (version project_name : str) (w : world)
    : result () * world :=
  match files w !! p with
  | None => (Err TargetFileMissing, log (EvExists p) w)
  | Some nd =>
      let w' := log (EvRead p) (log (EvExists p) w) in
      let updated :=
        replace PROJECT_NAME project_name
          (replace PROJECT_VERSION version (data nd)) in
      if readable nd then
        if writable nd then
          (Ok (),
           {| files := <[p := {| data := updated; readable := true;
                                 writable := true |}]> (files w);
              trace := EvWrite p updated :: trace w' |})
        else (Err WriteError, log (EvWrite p updated) w')
      else (Err WriteError, w')
  end.

Lemma parse_project_name_run p w :
  _parse_project_name p w =
  match files w !! p with
  | None => (Err (SourceFileMissing p), log (EvExists p) w)
  | Some nd =>
      let w' := log (EvRead p) (log (EvExists p) w) in
      if readable nd then
        if is_empty (name_of (data nd)) then (Err EmptyProjectName, w')
        else (Ok (name_of (data nd)), w')
      else (Err ReadError, w')
  end.
Proof.
  unfold _parse_project_name, name_of, mbind, M_bind, path_exists,
    except_ioerror, read_text, mret, M_ret, raise.
  simpl. destruct (files w !! p) as [nd|] eqn:Hf; simpl; rewrite ?Hf; [|done].
  destruct (readable nd); simpl; [|done].
  by destruct (is_empty _).
Qed.

Lemma parse_cmake_version_run p w :
  _parse_cmake_version p w =
  match files w !! p with
  | None => (Err (SourceFileMissing p), log (EvExists p) w)
  | Some nd =>
      let w' := log (EvRead p) (log (EvExists p) w) in
      if readable nd then (version_of (data nd), w') else (Err ReadError, w')
  end.
Proof.
  unfold _parse_cmake_version, version_of, mbind, M_bind, path_exists,
    read_text, mret, M_ret, raise.
  simpl. destruct (files w !! p) as [nd|] eqn:Hf; simpl; rewrite ?Hf; [|done].
  destruct (readable nd); simpl; [|done].
  destruct (re_search project_version_flags _ _); [|done].
  by destruct (negb _).
Qed.

Lemma resolve_version_run version w :
  resolve_version version w =
  if truthy version then
    if validate_version (the version) then (Ok (the version), w)
    else (Err InvalidVersionFormat, w)
  else _parse_cmake_version "CMakeLists.txt" w.
Proof.
  unfold resolve_version, mbind, M_bind, mret, M_ret, raise.
  destruct (truthy version); simpl; [|done].
  by destruct (validate_version _).
Qed.

Lemma update_doxyfile_run p version w :
  update_doxyfile p version w =
  match resolve_version version w with
  | (Err e, w1) => (Err e, w1)
  | (Ok v, w1) =>
      match _parse_project_name "README.md" w1 with
      | (Err e, w2) => (Err e, w2)
      | (Ok n, w2) => rewrite_run p v n w2
      end
  end.
Proof.
  unfold update_doxyfile, mbind, M_bind at 1 2.
  destruct (resolve_version version w) as [[v|e] w1]; [|done].
  destruct (_parse_project_name "README.md" w1) as [[n|e] w2]; [|done].
  unfold rewrite_run, mbind, M_bind, path_exists, except_ioerror, read_text,
    write_text, raise. simpl.
  destruct (files w2 !! p) as [nd|] eqn:Hf; simpl; rewrite ?Hf; [|done].
  destruct (readable nd) eqn:Hr; simpl; rewrite ?Hf; [|done].
  destruct (writable nd); simpl; [|done].
  by rewrite Hr.
Qed.

Lemma unchanged_refl w : unchanged w w.
Proof. done. Qed.

Lemma unchanged_trans w1 w2 w3 :
  unchanged w1 w2 → unchanged w2 w3 → unchanged w1 w3.
Proof. intros [? ?] [? ?]. split; congruence. Qed.

Lemma parse_project_name_unchanged p w :
  unchanged w (snd (_parse_project_name p w)).
Proof.
  rewrite parse_project_name_run. destruct (files w !! p) as [nd|]; [|done].
  simpl. destruct (readable nd); [|done]. by destruct (is_empty _).
Qed.

Lemma parse_cmake_version_unchanged p w :
  unchanged w (snd (_parse_cmake_version p w)).
Proof.
  rewrite parse_cmake_version_run. destruct (files w !! p) as [nd|]; [|done].
  simpl. by destruct (readable nd).
Qed.

Lemma resolve_version_unchanged version w :
  unchanged w (snd (resolve_version version w)).
Proof.
  rewrite resolve_version_run. destruct (truthy version).
  - by destruct (validate_version _).
  - apply parse_cmake_version_unchanged.
Qed.

End Run.

(** ** The versions the script accepts and composes *)

Module Versions.
Import ReSpec Shapes TextFacts Run.

(** The build descriptor has a declaration [PROJECT(... VERSION v ...)]. *)
Definition declares_project (content v : str) : Prop :=
  ∃ a d post, content = a ++ d ++ post ∧ project_declaration d v.

(** The build descriptor has a declaration [SET(VERSION_CPPFIX "n")]. *)
Definition declares_cpp_fix (content n : str) : Prop :=
  ∃ a d post, content = a ++ d ++ post ∧ cpp_fix_declaration d n.

(** A version has digits and dots only. *)
Definition version_char (c : ascii) : bool := isdecimal c || Ascii.eqb c ".".

(** The dots of a version. *)
Definition dots (v : str) : nat := count_occ Ascii.ascii_dec v "."%char.

Lemma at_eol_no_flags post :
  at_eol no_flags post = true ↔ post = [] ∨ post = [newline].
Proof.
  destruct post as [|a [|b post]]; simpl.
  - split; [by left|done].
  - rewrite andb_true_r, Ascii.eqb_eq. split.
    + intros ->. by right.
    + by intros [|[= ->]].
  - rewrite andb_false_r. split; [done|]. by intros [|].
Qed.

(** What [validate_version] accepts: a version, and a version followed by
    one newline. *)
Lemma validate_version_iff s :
  validate_version s = true
  ↔ version_shape s ∨ ∃ v, s = v ++ [newline] ∧ version_shape v.
Proof.
  unfold validate_version, re_match. rewrite bool_decide_eq_true. split.
  - intros [m Hm]. apply match_at_sound in Hm as (v & post & -> & HM & _).
    apply version_pattern_Matches in HM as (Hv & He & _).
    apply at_eol_no_flags in He as [-> | ->].
    + left. by rewrite app_nil_r.
    + right. by exists v.
  - intros [Hv|(v & -> & Hv)].
    + rewrite <- (app_nil_r s). eapply match_at_complete.
      apply version_pattern_Matches. done.
    + eapply match_at_complete. apply version_pattern_Matches.
      split; [done|]. split; [|reflexivity]. by apply at_eol_no_flags; right.
Qed.

Lemma validate_version_shape v : version_shape v → validate_version v = true.
Proof. intros H. apply validate_version_iff. by left. Qed.

Lemma lookup_group_head n v g : lookup_group ((n, v) :: g) n = Some v.
Proof. simpl. by rewrite Nat.eqb_refl. Qed.

Lemma re_search_project content m :
  re_search project_version_flags project_version_pattern content = Some m →
  declares_project content (group m 1).
Proof.
  intros (a & d & (post & -> & HM) & _)%re_search_sound.
  apply project_version_pattern_Matches in HM as (v & Hd & Hg).
  unfold group. rewrite Hg. simpl. by exists a, d, post.
Qed.

Lemma re_search_project_None content :
  re_search project_version_flags project_version_pattern content = None
  ↔ ∀ v, ¬ declares_project content v.
Proof.
  rewrite re_search_None. split.
  - intros H v (a & d & post & -> & Hd). apply (H a d [(1, v)]).
    exists post. split; [done|]. apply project_version_pattern_Matches.
    by exists v.
  - intros H a d g (post & -> & HM).
    apply project_version_pattern_Matches in HM as (v & Hd & _).
    apply (H v). by exists a, d, post.
Qed.

Lemma re_search_cpp_fix content m :
  re_search no_flags cpp_fix_pattern content = Some m →
  declares_cpp_fix content (group m 1).
Proof.
  intros (a & d & (post & -> & HM) & _)%re_search_sound.
  apply cpp_fix_pattern_Matches in HM as (n & Hd & Hg).
  unfold group. rewrite Hg. simpl. by exists a, d, post.
Qed.

Lemma re_search_cpp_fix_None content :
  re_search no_flags cpp_fix_pattern content = None
  ↔ ∀ n, ¬ declares_cpp_fix content n.
Proof.
  rewrite re_search_None. split.
  - intros H n (a & d & post & -> & Hd). apply (H a d [(1, n)]).
    exists post. split; [done|]. apply cpp_fix_pattern_Matches. by exists n.
  - intros H a d g (post & -> & HM).
    apply cpp_fix_pattern_Matches in HM as (n & Hd & _).
    apply (H n). by exists a, d, post.
Qed.

Lemma declares_project_three_part content v :
  declares_project content v → three_part v.
Proof. by intros (a & d & post & _ & kw & ws & x & vkw & ws1 & b & _ & _ & _ & _ & _ & _ & H & _). Qed.

Lemma declares_cpp_fix_digits content n :
  declares_cpp_fix content n → digits n.
Proof. by intros (a & d & post & _ & ws & ws1 & ws2 & _ & _ & _ & H & _). Qed.

(** The version the script composes passes its own check. *)
Lemma composed_version_valid content v :
  declares_project content v →
  validate_version v = true
  ∧ ∀ n, declares_cpp_fix content n → validate_version (v ++ L "." ++ n) = true.
Proof.
  intros Hv%declares_project_three_part. split.
  - apply validate_version_shape. by left.
  - intros n Hn%declares_cpp_fix_digits. apply validate_version_shape.
    right. by exists v, n.
Qed.

(** What the script makes of a build descriptor. *)
Lemma version_of_cases content :
  (version_of content = Err VersionNotFound
   ∧ ∀ v, ¬ declares_project content v)
  ∨ (∃ v, declares_project content v
       ∧ ((version_of content = Ok v ∧ ∀ n, ¬ declares_cpp_fix content n)
          ∨ ∃ n, declares_cpp_fix content n
              ∧ version_of content = Ok (v ++ L "." ++ n))).
Proof.
  unfold version_of.
  destruct (re_search project_version_flags _ _) as [m|] eqn:Hm.
  - right. apply re_search_project in Hm. exists (group m 1).
    split; [done|]. destruct (composed_version_valid _ _ Hm) as [Hv Hvn].
    destruct (re_search no_flags _ _) as [m'|] eqn:Hm'.
    + right. apply re_search_cpp_fix in Hm'. exists (group m' 1).
      split; [done|]. by rewrite (Hvn _ Hm').
    + left. rewrite Hv. split; [done|]. by apply re_search_cpp_fix_None.
  - left. split; [done|]. by apply re_search_project_None.
Qed.

Lemma version_of_valid content : version_of content ≠ Err InvalidVersionFormat.
Proof.
  destruct (version_of_cases content)
    as [[-> _]|(v & _ & [[-> _]|(n & _ & ->)])]; discriminate.
Qed.

Lemma parse_cmake_version_valid p w :
  fst (_parse_cmake_version p w) ≠ Err InvalidVersionFormat.
Proof.
  rewrite parse_cmake_version_run. destruct (files w !! p) as [nd|]; [|done].
  simpl. destruct (readable nd); [|done]. apply version_of_valid.
Qed.

Lemma digits_version_chars x : digits x → forallb version_char x = true.
Proof.
  intros [_ H]. induction H as [|c x Hc _ IH]; [done|].
  simpl. unfold version_char at 1. by rewrite Hc, IH.
Qed.

Lemma three_part_version_chars v : three_part v → forallb version_char v = true.
Proof.
  intros (x & y & z & Hx & Hy & Hz & ->).
  rewrite !forallb_app.
  by rewrite (digits_version_chars x), (digits_version_chars y),
    (digits_version_chars z).
Qed.

Lemma version_shape_chars v : version_shape v → forallb version_char v = true.
Proof.
  intros [H|(u & n & Hu & Hn & ->)].
  - by apply three_part_version_chars.
  - rewrite !forallb_app.
    by rewrite (three_part_version_chars u), (digits_version_chars n).
Qed.

Lemma digits_dots x : digits x → dots x = 0.
Proof.
  intros [_ H]. unfold dots. induction H as [|c x Hc _ IH]; [done|].
  simpl. destruct (Ascii.ascii_dec c "."%char); [by subst|done].
Qed.

Lemma three_part_dots v : three_part v → dots v = 2.
Proof.
  intros (x & y & z & Hx & Hy & Hz & ->). unfold dots.
  rewrite !count_occ_app. fold (dots x) (dots y) (dots z).
  by rewrite (digits_dots x), (digits_dots y), (digits_dots z).
Qed.

End Versions.

(** ** Which match the script reads *)

Module Choice.
Import ReSpec Shapes TextFacts Run Versions.

(** The text [r] does not go on with a character of the class [p]. *)
Definition stops (p : ascii → bool) (r : str) : Prop :=
  match r with
  | [] => True
  | c :: _ => p c = false
  end.

(** No closing parenthesis, as a test. *)
Definition not_rparen (c : ascii) : bool := negb (Ascii.eqb c ")").

(** A clause [VERSION x.y.z] of the text [inner]: it follows the text
    [a], has the value [v], and the text [b] follows it. *)
Definition version_clause (inner a v b : str) : Prop :=
  ∃ vkw ws1, inner = a ++ vkw ++ ws1 ++ v ++ b
    ∧ same_text project_version_flags vkw (L "VERSION")
    ∧ (ws1 ≠ [] ∧ spaces ws1)
    ∧ three_part v.

(** A statement [PROJECT(inner)], with no closing parenthesis in
    [inner]. *)
Definition project_statement (d inner : str) : Prop :=
  ∃ kw ws, d = kw ++ ws ++ L "(" ++ inner ++ L ")"
    ∧ same_text project_version_flags kw (L "PROJECT")
    ∧ spaces ws ∧ no_rparen inner.

(** [d], with the value [v], is a declaration of [content] after the text
    [a], and no declaration of the kind [decl] starts before it. *)
Definition first_declaration (decl : str → str → Prop) (content a d v : str)
    : Prop :=
  (∃ post, content = a ++ d ++ post) ∧ decl d v
  ∧ ∀ a' d' post' v', content = a' ++ d' ++ post' → decl d' v' →
      length a ≤ length a'.

(** The value the script reads off the descriptor [content]: in the
    project declaration that starts first, the value of the last version
    clause between the parentheses, with every digit of its last part. *)
Definition chosen_project_value (content v : str) : Prop :=
  ∃ pre d inner a b,
    first_declaration project_declaration content pre d v
    ∧ project_statement d inner
    ∧ version_clause inner a v b
    ∧ (∀ a' v' b', version_clause inner a' v' b' → length a' ≤ length a)
    ∧ stops isdecimal b.

(** The fix level the script reads off the descriptor: that of the
    fix-level declaration that starts first. *)
Definition chosen_fix_level (content n : str) : Prop :=
  ∃ pre d, first_declaration cpp_fix_declaration content pre d n.

(** The version the script makes of the descriptor [content]: the chosen
    project value, alone when there is no fix-level declaration, and
    followed by a dot and the chosen fix level when there is one. *)
Definition resolved_from (content r : str) : Prop :=
  ∃ v, chosen_project_value content v
    ∧ ((r = v ∧ ∀ n, ¬ declares_cpp_fix content n)
       ∨ ∃ n, chosen_fix_level content n ∧ r = v ++ L "." ++ n).

Section Greedy.
Context {R : Type}.
Implicit Types (k : str → str → groups → option R).

Lemma run_seq f r1 r2 k pre rest g :
  run f (Seq r1 r2) k pre rest g = run f r1 (run f r2 k) pre rest g.
Proof. done. Qed.

Lemma run_star f cs k pre rest g :
  run f (Star cs) k pre rest g = star f cs k pre rest g.
Proof. done. Qed.

Lemma run_group f n r k pre rest g :
  run f (Group n r) k pre rest g
  = run f r
      (λ pre' rest' g',
         k pre' rest' ((n, firstn (length rest - length rest') rest) :: g'))
      pre rest g.
Proof. done. Qed.

(** A repetition takes the longest run after which the rest of the
    pattern matches. *)
Lemma star_greedy f cs k rest : ∀ pre g res,
  star f cs k pre rest g = Some res →
  ∃ w post, rest = w ++ post
    ∧ all_in f cs w
    ∧ k (rev w ++ pre) post g = Some res
    ∧ ∀ w' post', rest = w' ++ post' → all_in f cs w' →
        length w < length w' → k (rev w' ++ pre) post' g = None.
Proof.
  unfold all_in.
  induction rest as [|a rest IH]; intros pre g res H; simpl in H.
  - exists [], []. repeat split; [constructor|done|].
    intros [|c w'] post' Hr _ Hl; [simpl in Hl; lia|done].
  - assert (Hnone : star f cs k (a :: pre) rest g = None →
              ∀ w' post', a :: rest = w' ++ post' →
                Forall (λ a, cset_mem f cs a = true) w' →
                0 < length w' → k (rev w' ++ pre) post' g = None).
    { intros Hs [|c w'] post' Hr Hw Hl; [simpl in Hl; lia|].
      injection Hr as <- ->. inversion Hw as [|? ? _ Hw']; subst.
      destruct (k (rev (a :: w') ++ pre) post' g) eqn:Hk; [|done].
      destruct (star_complete f cs k w' (a :: pre) post' g Hw') as [? Hc].
      - simpl in Hk. rewrite <- app_assoc in Hk. simpl in Hk. by eexists.
      - congruence. }
    destruct (cset_mem f cs a) eqn:Ha.
    + destruct (star f cs k (a :: pre) rest g) eqn:Hs.
      * injection H as ->.
        destruct (IH _ _ _ Hs) as (w & post & -> & Hw & Hk & Hmax).
        exists (a :: w), post. split; [done|]. split; [by constructor|].
        split; [simpl; by rewrite <- app_assoc|].
        intros [|c w'] post' Hr Hw' Hl; [simpl in Hl; lia|].
        injection Hr as <- Hr. inversion Hw' as [|? ? _ Hw'']; subst.
        simpl. rewrite <- app_assoc. simpl.
        apply Hmax; [done|done|simpl in Hl; lia].
      * exists [], (a :: rest). split; [done|]. split; [constructor|].
        split; [done|]. by apply Hnone.
    + exists [], (a :: rest). split; [done|]. split; [constructor|].
      split; [done|].
      intros [|c w'] post' Hr Hw Hl; [simpl in Hl; lia|].
      injection Hr as <- _. inversion Hw; subst. congruence.
Qed.
End Greedy.

(** [re.search] returns the match at the first position that has one. *)
Lemma search_from_first f r rest : ∀ pre m,
  search_from f r pre rest = Some m →
  ∃ a rest', rest = a ++ rest'
    ∧ match_at f r (rev a ++ pre) rest' = Some m
    ∧ ∀ a' rest'', rest = a' ++ rest'' → length a' < length a →
        match_at f r (rev a' ++ pre) rest'' = None.
Proof.
  induction rest as [|c rest IH]; intros pre m H; simpl in H.
  - destruct (match_at f r pre []) eqn:Hm; [|done]. injection H as ->.
    exists [], []. repeat split; [done|]. intros ? ? _ Hl. simpl in Hl. lia.
  - destruct (match_at f r pre (c :: rest)) eqn:Hm.
    + injection H as ->. exists [], (c :: rest). repeat split; [done|].
      intros ? ? _ Hl. simpl in Hl. lia.
    + destruct (IH _ _ H) as (a & rest' & -> & Hma & Hfirst).
      exists (c :: a), rest'. split; [done|].
      split; [simpl; by rewrite <- app_assoc|].
      intros [|c' a'] rest'' Hr Hl.
      * simpl in *. by rewrite <- Hr.
      * injection Hr as <- Hr. simpl. rewrite <- app_assoc. simpl.
        apply Hfirst; [done|simpl in Hl; lia].
Qed.

(** Two runs of one class of characters that start at the same place and
    stop where the class stops are the same run. *)
Lemma span_unique (p : ascii → bool) (l1 : str) : ∀ l2 r1 r2,
  l1 ++ r1 = l2 ++ r2 →
  Forall (λ c, p c = true) l1 → Forall (λ c, p c = true) l2 →
  stops p r1 → stops p r2 → l1 = l2 ∧ r1 = r2.
Proof.
  induction l1 as [|c l1 IH]; intros [|c2 l2] r1 r2 Heq H1 H2 S1 S2;
    simpl in *.
  - done.
  - subst r1. simpl in S1. inversion H2; subst. congruence.
  - subst r2. simpl in S2. inversion H1; subst. congruence.
  - injection Heq as <- Heq. inversion H1; inversion H2; subst.
    destruct (IH l2 r1 r2) as [-> ->]; done.
Qed.

(** *** No closing parenthesis *)

Lemma no_rparen_app w1 w2 : no_rparen (w1 ++ w2) ↔ no_rparen w1 ∧ no_rparen w2.
Proof. apply Forall_app. Qed.

Lemma spaces_no_rparen ws : spaces ws → no_rparen ws.
Proof.
  intros H. eapply Forall_impl; [exact H|].
  intros c Hc ->. by vm_compute in Hc.
Qed.

Lemma digits_no_rparen x : digits x → no_rparen x.
Proof.
  intros [_ H]. eapply Forall_impl; [exact H|].
  intros c Hc ->. by vm_compute in Hc.
Qed.

Lemma three_part_no_rparen v : three_part v → no_rparen v.
Proof.
  intros (x & y & z & Hx%digits_no_rparen & Hy%digits_no_rparen
          & Hz%digits_no_rparen & ->).
  rewrite !no_rparen_app. repeat split; try done; by repeat constructor.
Qed.

Lemma version_keyword_no_rparen vkw :
  same_text project_version_flags vkw (L "VERSION") → no_rparen vkw.
Proof.
  intros H%same_text_ignorecase.
  apply Forall_forall. intros c Hc ->.
  assert (Hin : tolower ")" ∈ map tolower vkw).
  { apply list_elem_of_In, in_map. by apply list_elem_of_In. }
  rewrite H in Hin. vm_compute in Hin.
  repeat (apply elem_of_cons in Hin as [Hin|Hin]; [done|]).
  by apply elem_of_nil in Hin.
Qed.

Lemma same_text_length f w s : same_text f w s → length w = length s.
Proof. apply Forall2_length. Qed.

Lemma project_declaration_parts d v :
  project_declaration d v
  ↔ ∃ inner a b, project_statement d inner ∧ version_clause inner a v b.
Proof.
  split.
  - intros (kw & ws & a & vkw & ws1 & b & -> & Hkw & Hws & Ha & Hv & Hs1
            & H3 & Hb).
    exists (a ++ vkw ++ ws1 ++ v ++ b), a, b. split.
    + exists kw, ws. rewrite <- !app_assoc.
      split; [done|]. split; [done|]. split; [done|].
      rewrite !no_rparen_app. split; [done|].
      split; [by apply version_keyword_no_rparen|].
      split; [apply spaces_no_rparen, Hs1|].
      split; [by apply three_part_no_rparen|done].
    + by exists vkw, ws1.
  - intros (inner & a & b & (kw & ws & -> & Hkw & Hws & Hin)
            & vkw & ws1 & -> & Hv & [Hs1 Hs1'] & H3).
    rewrite !no_rparen_app in Hin. destruct Hin as (Ha & _ & _ & _ & Hb).
    exists kw, ws, a, vkw, ws1, b. rewrite <- !app_assoc.
    split; [done|]. by split_and!.
Qed.

(** *** The match of the project pattern *)

Lemma take_length_sub (w p t : str) :
  t = w ++ p → take (length t - length p) t = w.
Proof. intros ->. apply length_app_sub. Qed.

Lemma match_at_project_chosen pre rest m :
  match_at project_version_flags project_version_pattern pre rest = Some m →
  ∃ d inner a b post,
    rest = d ++ post
    ∧ project_statement d inner
    ∧ version_clause inner a (group m 1) b
    ∧ (∀ a' v' b', version_clause inner a' v' b' → length a' ≤ length a)
    ∧ stops isdecimal b.
Proof.
  unfold match_at, project_version_pattern. intros H.
  rewrite run_seq in H.
  apply run_sound in H as (kw & p1 & g1 & -> & Hkw & H).
  apply Matches_lits in Hkw as [Hkw ->].
  rewrite run_seq in H.
  apply run_sound in H as (ws & p2 & g2 & -> & Hws & H).
  apply Matches_spaces in Hws as [Hws ->].
  rewrite run_seq in H.
  apply run_sound in H as (lp & p3 & g3 & -> & Hlp & H).
  apply Matches_lparen in Hlp as [-> ->].
  rewrite run_seq, run_star in H.
  apply star_greedy in H as (a & p4 & -> & Ha & H & Hamax).
  rewrite run_seq in H.
  apply run_sound in H as (vkw & p5 & g5 & -> & Hvkw & H).
  apply Matches_lits in Hvkw as [Hvkw ->].
  rewrite run_seq in H.
  apply run_sound in H as (ws1 & p6 & g6 & -> & Hws1 & H).
  apply Matches_plus_spaces in Hws1 as [Hws1 ->].
  rewrite run_seq, run_group in H.
  rewrite run_seq in H.
  apply run_sound in H as (x & p7 & g7 & -> & Hx & H).
  apply Matches_digits in Hx as [Hx ->].
  rewrite run_seq in H.
  apply run_sound in H as (d1 & p8 & g8 & -> & Hd1 & H).
  apply Matches_dot in Hd1 as [-> ->].
  rewrite run_seq in H.
  apply run_sound in H as (y & p9 & g9 & -> & Hy & H).
  apply Matches_digits in Hy as [Hy ->].
  rewrite run_seq in H.
  apply run_sound in H as (d2 & p10 & g10 & -> & Hd2 & H).
  apply Matches_dot in Hd2 as [-> ->].
  unfold Plus at 1 in H. rewrite run_seq in H.
  apply run_sound in H as (z0 & p11 & g11 & -> & Hz0 & H).
  destruct Hz0 as (c0 & -> & Hc0 & ->).
  rewrite run_star in H.
  apply star_greedy in H as (zt & p12 & -> & Hzt & H & Hzmax).
  rewrite run_seq in H.
  apply run_sound in H as (b & p13 & g13 & -> & Hb & H).
  apply Matches_no_rparen in Hb as [Hb ->].
  apply run_sound in H as (rp & post & g14 & -> & Hrp & H).
  apply Matches_rparen in Hrp as [-> ->].
  injection H as <-.
  assert (Hg : ∀ s e t,
            group {| m_start := s; m_end := e; m_groups := [(1, t)] |} 1 = t)
    by done.
  rewrite Hg. clear Hg.
  match goal with
  | |- context [take ?n ?l] =>
      assert (Htake : take n l = x ++ L "." ++ y ++ L "." ++ [c0] ++ zt)
        by (apply take_length_sub; by rewrite <- !app_assoc);
      rewrite Htake; clear Htake
  end.
  set (v := x ++ L "." ++ y ++ L "." ++ [c0] ++ zt) in *.
  assert (Hz : digits ([c0] ++ zt)) by (split; [done|by constructor]).
  assert (H3 : three_part v) by (by apply three_part_intro).
  assert (Ha' : no_rparen a) by (by apply (Matches_no_rparen
    project_version_flags [] a [] [] [])).
  set (inner := a ++ vkw ++ ws1 ++ v ++ b).
  assert (Hinner : no_rparen inner).
  { unfold inner. rewrite !no_rparen_app. split; [done|].
    split; [by apply version_keyword_no_rparen|].
    split; [apply spaces_no_rparen, Hws1|].
    split; [by apply three_part_no_rparen|done]. }
  exists (kw ++ ws ++ L "(" ++ inner ++ L ")"), inner, a, b, post.
  split; [unfold inner, v; by rewrite <- !app_assoc|].
  split; [by exists kw, ws|]. split; [by exists vkw, ws1|]. split.
  - intros a' v' b' (vkw' & ws1' & Heq & Hvkw' & Hws1' & H3').
    destruct (le_lt_dec (length a') (length a)) as [|Hlt]; [done|]. exfalso.
    assert (Hparts : no_rparen a' ∧ no_rparen b').
    { rewrite Heq, !no_rparen_app in Hinner. tauto. }
    destruct Hparts as [Hna' Hnb'].
    assert (Htext : a ++ vkw ++ ws1 ++ x ++ L "." ++ y ++ L "." ++ [c0] ++ zt
                    ++ b ++ L ")" ++ post
                    = a' ++ vkw' ++ ws1' ++ v' ++ b' ++ L ")" ++ post).
    { transitivity (inner ++ L ")" ++ post);
        [unfold inner, v; by rewrite <- !app_assoc|].
      rewrite Heq. by rewrite <- !app_assoc. }
    assert (Hall : all_in project_version_flags (NotLit ")") a')
      by (by apply (Matches_no_rparen project_version_flags [] a' [] [] [])).
    pose proof (Hamax a' _ Htext Hall Hlt) as Hnone.
    edestruct (run_complete project_version_flags
                 (lits (L "VERSION") ⋅ Plus Space
                  ⋅ Group 1 (Plus Digit ⋅ Chr (Lit ".") ⋅ Plus Digit
                             ⋅ Chr (Lit ".") ⋅ Plus Digit)
                  ⋅ Star (NotLit ")") ⋅ Chr (Lit ")"))
                 (λ (pre' _ : str) (g : groups),
                    Some {| m_start := length pre; m_end := length pre';
                            m_groups := g |})
                 (rev a' ++ rev (L "(") ++ rev ws ++ rev kw ++ pre)
                 (vkw' ++ ws1' ++ v' ++ b' ++ L ")") post [] [(1, v')])
      as [res Hres].
    + seq_intro vkw'; [by apply Matches_lits|].
      seq_intro ws1'; [by apply Matches_plus_spaces|].
      apply (Matches_seq _ _ _ _ v' _ _ [] [(1, v')]);
        [exists []; split; [by apply Matches_three_part|done]|].
      seq_intro b'; [by apply Matches_no_rparen|by apply Matches_rparen].
    + by eexists.
    + rewrite <- !app_assoc in Hres. congruence.
  - destruct b as [|c b']; [done|]. simpl.
    destruct (isdecimal c) eqn:Hc; [exfalso|done].
    assert (Htext : zt ++ (c :: b') ++ L ")" ++ post
                    = (zt ++ [c]) ++ b' ++ L ")" ++ post)
      by (by rewrite <- app_assoc).
    assert (Hall : all_in project_version_flags Digit (zt ++ [c]))
      by (apply Forall_app; split; [done|by repeat constructor]).
    assert (Hlt : length zt < length (zt ++ [c]))
      by (rewrite length_app; simpl; lia).
    pose proof (Hzmax _ _ Htext Hall Hlt) as Hnone.
    match type of Hnone with
    | ?t = None => assert (Hsome : is_Some t)
    end.
    { rewrite (app_assoc b' (L ")") post).
      eapply run_complete; [|by eexists].
      seq_intro b'; [apply Matches_no_rparen|by apply Matches_rparen].
      split; [|done]. by inversion Hb. }
    rewrite Hnone in Hsome. by destruct Hsome.
Qed.

(** *** What the searches return *)

Lemma re_search_chosen_project content m :
  re_search project_version_flags project_version_pattern content = Some m →
  chosen_project_value content (group m 1).
Proof.
  unfold re_search. intros H.
  apply search_from_first in H as (pre & rest & -> & Hm & Hfirst).
  rewrite app_nil_r in Hm.
  apply match_at_project_chosen in Hm
    as (d & inner & a & b & post & -> & Hst & Hvc & Hmax & Hstop).
  exists pre, d, inner, a, b. split; [|done].
  split; [by exists post|].
  split; [apply project_declaration_parts; by exists inner, a, b|].
  intros a' d' post' v' Heq Hd'.
  destruct (le_lt_dec (length pre) (length a')) as [|Hlt]; [done|]. exfalso.
  specialize (Hfirst a' (d' ++ post') Heq Hlt). rewrite app_nil_r in Hfirst.
  destruct (match_at_complete project_version_flags project_version_pattern
              (rev a') d' post' [(1, v')]) as [m' Hm'];
    [apply project_version_pattern_Matches; by exists v'|congruence].
Qed.

Lemma re_search_chosen_fix content m :
  re_search no_flags cpp_fix_pattern content = Some m →
  chosen_fix_level content (group m 1).
Proof.
  unfold re_search. intros H.
  apply search_from_first in H as (pre & rest & -> & Hm & Hfirst).
  rewrite app_nil_r in Hm.
  apply match_at_sound in Hm as (d & post & -> & HM & _).
  apply cpp_fix_pattern_Matches in HM as (n & Hd & Hg).
  unfold group. rewrite Hg. simpl.
  exists pre, d. split; [by exists post|]. split; [done|].
  intros a' d' post' v' Heq Hd'.
  destruct (le_lt_dec (length pre) (length a')) as [|Hlt]; [done|]. exfalso.
  specialize (Hfirst a' (d' ++ post') Heq Hlt). rewrite app_nil_r in Hfirst.
  destruct (match_at_complete no_flags cpp_fix_pattern
              (rev a') d' post' [(1, v')]) as [m' Hm'];
    [apply cpp_fix_pattern_Matches; by exists v'|congruence].
Qed.

Lemma chosen_project_value_declares content v :
  chosen_project_value content v → declares_project content v.
Proof.
  intros (pre & d & _ & _ & _ & ((post & ->) & Hd & _) & _).
  by exists pre, d, post.
Qed.

Lemma chosen_fix_level_declares content n :
  chosen_fix_level content n → declares_cpp_fix content n.
Proof. intros (pre & d & (post & ->) & Hd & _). by exists pre, d, post. Qed.

(** *** There is one chosen value *)

Lemma first_declaration_start decl content a d v a' d' v' :
  first_declaration decl content a d v →
  first_declaration decl content a' d' v' →
  a' = a ∧ ∃ post post', d ++ post = d' ++ post'.
Proof.
  intros ((post & Hc) & Hd & Hmin) ((post' & Hc') & Hd' & Hmin').
  pose proof (Hmin _ _ _ _ Hc' Hd') as H1.
  pose proof (Hmin' _ _ _ _ Hc Hd) as H2.
  rewrite Hc in Hc'. apply app_inj_1 in Hc' as [-> Hc']; [|lia].
  split; [done|]. by exists post, post'.
Qed.

Lemma no_rparen_not_rparen w :
  no_rparen w → Forall (λ c, not_rparen c = true) w.
Proof.
  intros H. eapply Forall_impl; [exact H|]. intros c Hc. unfold not_rparen.
  destruct (Ascii.eqb_spec c ")"); [done|done].
Qed.

Lemma digits_span x r x' r' :
  digits x → digits x' → x ++ r = x' ++ r' →
  stops isdecimal r → stops isdecimal r' → x = x' ∧ r = r'.
Proof.
  intros [_ H] [_ H'] Heq. by apply span_unique.
Qed.

Lemma spaces_span ws r ws' r' :
  spaces ws → spaces ws' → ws ++ r = ws' ++ r' →
  stops isspace r → stops isspace r' → ws = ws' ∧ r = r'.
Proof. intros H H' Heq. by apply span_unique. Qed.

Lemma three_part_stops_spaces v b : three_part v → stops isspace (v ++ b).
Proof.
  intros (x & y & z & [Hne Hx] & _ & _ & ->).
  destruct x as [|c x]; [done|]. simpl. inversion Hx as [|? ? Hc _]; subst.
  unfold isdecimal in Hc. unfold isspace.
  apply andb_true_iff in Hc as [H1%Nat.leb_le H2%Nat.leb_le].
  repeat match goal with
         | |- context [?a <=? ?b] =>
             destruct (Nat.leb_spec a b); try lia
         | |- context [?a =? ?b] =>
             destruct (Nat.eqb_spec a b); try lia
         end; done.
Qed.

(** A value [x.y.z] with every digit of [z] is the only one that starts
    where it starts. *)
Lemma three_part_unique v b v' b' :
  three_part v → three_part v' → v ++ b = v' ++ b' →
  stops isdecimal b → stops isdecimal b' → v = v'.
Proof.
  intros (x & y & z & Hx & Hy & Hz & ->) (x' & y' & z' & Hx' & Hy' & Hz' & ->).
  rewrite <- !app_assoc. intros Heq Hb Hb'.
  apply digits_span in Heq as [<- Heq]; [|done..].
  injection Heq as Heq.
  apply digits_span in Heq as [<- Heq]; [|done..].
  injection Heq as Heq.
  apply digits_span in Heq as [<- _]; done.
Qed.

Lemma version_clause_unique inner a v b v' b' :
  version_clause inner a v b → version_clause inner a v' b' →
  stops isdecimal b → stops isdecimal b' → v = v'.
Proof.
  intros (vkw & ws1 & -> & Hk & [_ Hs] & H3)
         (vkw' & ws1' & Heq & Hk' & [_ Hs'] & H3') Hb Hb'.
  apply app_inv_head in Heq.
  apply app_inj_1 in Heq as [_ Heq];
    [|by rewrite (same_text_length _ _ _ Hk), (same_text_length _ _ _ Hk')].
  apply spaces_span in Heq as [_ Heq];
    [|done|done|by apply three_part_stops_spaces..].
  by apply (three_part_unique v b v' b').
Qed.

Lemma project_statement_unique d post inner d' post' inner' :
  project_statement d inner → project_statement d' inner' →
  d ++ post = d' ++ post' → inner' = inner.
Proof.
  intros (kw & ws & -> & Hk & Hs & Hi) (kw' & ws' & -> & Hk' & Hs' & Hi').
  rewrite <- !app_assoc. intros Heq.
  apply app_inj_1 in Heq as [_ Heq];
    [|by rewrite (same_text_length _ _ _ Hk), (same_text_length _ _ _ Hk')].
  apply spaces_span in Heq as [_ Heq]; [|done..].
  injection Heq as Heq.
  apply (span_unique not_rparen) in Heq as [-> _];
    [done|by apply no_rparen_not_rparen..|done|done].
Qed.

Lemma chosen_project_value_unique content v v' :
  chosen_project_value content v → chosen_project_value content v' → v' = v.
Proof.
  intros (pre & d & inner & a & b & Hf & Hst & Hvc & Hmax & Hb)
         (pre' & d' & inner' & a' & b' & Hf' & Hst' & Hvc' & Hmax' & Hb').
  destruct (first_declaration_start _ _ _ _ _ _ _ _ Hf Hf')
    as (-> & post & post' & Heq).
  pose proof (project_statement_unique _ _ _ _ _ _ Hst Hst' Heq) as ->.
  pose proof (Hmax _ _ _ Hvc') as H1. pose proof (Hmax' _ _ _ Hvc) as H2.
  assert (a' = a) as ->.
  { destruct Hvc as (? & ? & Hi & _), Hvc' as (? & ? & Hi' & _).
    rewrite Hi in Hi'. apply app_inj_1 in Hi' as [-> _]; [done|lia]. }
  symmetry. by apply (version_clause_unique inner a v b v' b').
Qed.

Lemma cpp_fix_declaration_unique d post n d' post' n' :
  cpp_fix_declaration d n → cpp_fix_declaration d' n' →
  d ++ post = d' ++ post' → n' = n.
Proof.
  intros (ws & ws1 & ws2 & -> & Hs & Hs1 & Hn & Hs2)
         (ws' & ws1' & ws2' & -> & Hs' & Hs1' & Hn' & Hs2').
  rewrite <- !app_assoc. intros Heq. injection Heq as Heq.
  apply spaces_span in Heq as [_ Heq]; [|done..].
  injection Heq as Heq.
  apply spaces_span in Heq as [_ Heq]; [|done..].
  injection Heq as Heq.
  apply digits_span in Heq as [-> _]; done.
Qed.

Lemma chosen_fix_level_unique content n n' :
  chosen_fix_level content n → chosen_fix_level content n' → n' = n.
Proof.
  intros (pre & d & Hf) (pre' & d' & Hf').
  destruct (first_declaration_start _ _ _ _ _ _ _ _ Hf Hf')
    as (-> & post & post' & Heq).
  destruct Hf as (_ & Hd & _), Hf' as (_ & Hd' & _).
  by apply (cpp_fix_declaration_unique d post n d' post' n').
Qed.

Lemma resolved_from_unique content r r' :
  resolved_from content r → resolved_from content r' → r' = r.
Proof.
  intros (v & Hv & Hr) (v' & Hv' & Hr').
  pose proof (chosen_project_value_unique _ _ _ Hv Hv') as ->.
  destruct Hr as [[-> Hno]|(n & Hn & ->)],
           Hr' as [[-> Hno']|(n' & Hn' & ->)].
  - done.
  - by destruct (Hno n'); apply chosen_fix_level_declares.
  - by destruct (Hno' n); apply chosen_fix_level_declares.
  - by rewrite (chosen_fix_level_unique _ _ _ Hn Hn').
Qed.

(** *** The version made of a descriptor *)

Lemma version_of_resolved content r :
  version_of content = Ok r → resolved_from content r.
Proof.
  unfold version_of.
  destruct (re_search project_version_flags _ _) as [m|] eqn:Hm; [|done].
  pose proof (re_search_chosen_project _ _ Hm) as Hv.
  destruct (re_search no_flags _ _) as [m'|] eqn:Hm'.
  - destruct (negb _); [done|]. intros [= <-].
    exists (group m 1). split; [done|]. right.
    exists (group m' 1). split; [by apply re_search_chosen_fix|done].
  - destruct (negb _); [done|]. intros [= <-].
    exists (group m 1). split; [done|]. left.
    split; [done|]. by apply re_search_cpp_fix_None.
Qed.

Lemma version_of_declared content v :
  declares_project content v → ∃ r, version_of content = Ok r.
Proof.
  intros Hv.
  destruct (version_of_cases content)
    as [[_ Hno]|(v' & _ & [[-> _]|(n & _ & ->)])]; [|by eexists..].
  by destruct (Hno v).
Qed.

(** The script returns the version [resolved_from] describes, and no
    other. *)
Lemma version_of_iff content r :
  version_of content = Ok r ↔ resolved_from content r.
Proof.
  split; [apply version_of_resolved|]. intros Hr.
  destruct Hr as (v & Hv & Hr).
  destruct (version_of_declared content v) as [r' Hr'];
    [by apply chosen_project_value_declares|].
  rewrite Hr'. f_equal.
  apply (resolved_from_unique content r r');
    [by exists v|by apply version_of_resolved].
Qed.

Lemma version_of_not_found content :
  version_of content = Err VersionNotFound
  ↔ ∀ v, ¬ declares_project content v.
Proof.
  destruct (version_of_cases content)
    as [[-> Hno]|(v & Hv & [[-> _]|(n & _ & ->)])].
  - done.
  - split; [done|]. intros Hno. by destruct (Hno v).
  - split; [done|]. intros Hno. by destruct (Hno v).
Qed.

End Choice.

(** ** The properties of the specification *)

Module Claims.
Import ReSpec Shapes TextFacts Run Versions Choice.

(** *** Sample files *)

Definition cmake_plain : str := L "project(Foo VERSION 1.2.3)".

Definition cmake_fix_upper : str :=
  cmake_plain ++ [newline] ++ L "SET(VERSION_CPPFIX " ++ [dquote] ++ L "4"
  ++ [dquote] ++ L ")".

Definition cmake_fix_lower : str :=
  cmake_plain ++ [newline] ++ L "set(VERSION_CPPFIX " ++ [dquote] ++ L "4"
  ++ [dquote] ++ L ")".

(** A last part of two digits, and two version clauses in one
    declaration. *)
Definition cmake_long_part : str := L "project(Foo VERSION 12.34.56)".

Definition cmake_two_clauses : str :=
  L "project(Foo VERSION 1.2.3 VERSION 4.5.6)".

Definition readme_demo : str := L "# Demo" ++ [newline] ++ L "A demo.".

Definition doxyfile_demo : str :=
  L "Version: %PROJECT_VERSION%, Name: %PROJECT_NAME%".

Definition demo_world : world :=
  world_of [("CMakeLists.txt"%string, cmake_plain);
            ("README.md"%string, readme_demo);
            ("Doxyfile"%string, doxyfile_demo)].

(** The lines of a text. *)
Fixpoint lines_from (cur s : str) : list str :=
  match s with
  | [] => [rev cur]
  | c :: s' =>
      if Ascii.eqb c newline then rev cur :: lines_from [] s'
      else lines_from (c :: cur) s'
  end.

(** The [#] characters a line starts with, taken off. *)
Fixpoint lstrip_sharps (s : str) : str :=
  match s with
  | c :: s' => if Ascii.eqb c sharp then lstrip_sharps s' else s
  | [] => []
  end.

(** The project name as the claim words it: of the first line that is not
    empty, the text without the [#] characters it starts with and without
    the white space around it; [EmptyProjectName] when that is empty. *)
Definition claimed_project_name (doc : str) : result str :=
  match List.find (λ l, negb (is_empty (strip l))) (lines_from [] doc) with
  | Some l =>
      let name := strip (lstrip_sharps (strip l)) in
      if is_empty name then Err EmptyProjectName else Ok name
  | None => Err EmptyProjectName
  end.

(** A readme that starts with an empty line. *)
Definition readme_blank_first : str := newline :: L "# MyProject".

(** A readme with a [#] inside its title. *)
Definition readme_inner_sharp : str := L "# C# binding".

Definition demo_world_no_cmake : world :=
  world_of [("README.md"%string, readme_demo);
            ("Doxyfile"%string, doxyfile_demo)].

(** The calls [evs] are what two runs have added to their traces, and
    none of them is about the path [p]. *)
Definition same_calls_avoiding (p : path) (t1 t1' t2 t2' : list event) : Prop :=
  ∃ evs, t1' = evs ++ t1 ∧ t2' = evs ++ t2
    ∧ Forall (λ ev, event_path ev ≠ p) evs.

(** *** C1 *)

Lemma replace_tokens_absent v n content :
  ¬ occurs PROJECT_VERSION content → ¬ occurs PROJECT_NAME content →
  replace PROJECT_NAME n (replace PROJECT_VERSION v content) = content.
Proof.
  intros Hv Hn. rewrite (replace_no_occurrence PROJECT_VERSION) by done.
  by apply replace_no_occurrence.
Qed.

(** C1.  Once the version [v] and the name [n] are resolved, patching a
    target that can be read and written succeeds; the text written is the
    text of the target with every occurrence of [%PROJECT_VERSION%]
    replaced by [v] and then every occurrence of [%PROJECT_NAME%] replaced
    by [n]; it becomes the whole text of the target, by the one write of
    the run, and no other file changes.  A target with neither token keeps
    its text. *)
Theorem patch_replaces_placeholders (tgt : path) (ver : option str)
    (w w1 w2 : world) (v n : str) (nd : node) :
  resolve_version ver w = (Ok v, w1) →
  _parse_project_name "README.md" w1 = (Ok n, w2) →
  files w !! tgt = Some nd → readable nd = true → writable nd = true →
  ∃ c1 c2,
    Replaced PROJECT_VERSION v (data nd) c1
    ∧ Replaced PROJECT_NAME n c1 c2
    ∧ fst (update_doxyfile tgt ver w) = Ok ()
    ∧ files (snd (update_doxyfile tgt ver w)) = <[tgt := regular c2]> (files w)
    ∧ trace (snd (update_doxyfile tgt ver w))
      = EvWrite tgt c2 :: EvRead tgt :: EvExists tgt :: trace w2
    ∧ writes (trace (snd (update_doxyfile tgt ver w)))
      = EvWrite tgt c2 :: writes (trace w)
    ∧ (¬ occurs PROJECT_VERSION (data nd) → ¬ occurs PROJECT_NAME (data nd) →
       c2 = data nd).
Proof.
  intros Hv Hn Hf Hr Hw.
  exists (replace PROJECT_VERSION v (data nd)),
    (replace PROJECT_NAME n (replace PROJECT_VERSION v (data nd))).
  split; [by apply replace_Replaced|]. split; [by apply replace_Replaced|].
  pose proof (resolve_version_unchanged ver w) as [Hf1 Ht1].
  pose proof (parse_project_name_unchanged "README.md" w1) as [Hf2 Ht2].
  rewrite Hv in Hf1, Ht1. rewrite Hn in Hf2, Ht2. simpl in *.
  rewrite update_doxyfile_run, Hv, Hn. unfold rewrite_run.
  rewrite Hf2, Hf1, Hf, Hr, Hw. simpl. rewrite Ht2, Ht1.
  repeat split. apply replace_tokens_absent.
Qed.

Lemma patch_replaces_placeholders_witness :
  ∃ c1 c2,
    Replaced PROJECT_VERSION (L "2.0.0") doxyfile_demo c1
    ∧ Replaced PROJECT_NAME (L "Demo") c1 c2
    ∧ fst (update_doxyfile "Doxyfile" (Some (L "2.0.0")) demo_world) = Ok ()
    ∧ files (snd (update_doxyfile "Doxyfile" (Some (L "2.0.0")) demo_world))
      = <["Doxyfile"%string := regular c2]> (files demo_world)
    ∧ trace (snd (update_doxyfile "Doxyfile" (Some (L "2.0.0")) demo_world))
      = EvWrite "Doxyfile" c2 :: EvRead "Doxyfile" :: EvExists "Doxyfile"
        :: trace (log (EvRead "README.md")
                    (log (EvExists "README.md") demo_world))
    ∧ writes (trace (snd (update_doxyfile "Doxyfile" (Some (L "2.0.0"))
                            demo_world)))
      = EvWrite "Doxyfile" c2 :: writes (trace demo_world)
    ∧ (¬ occurs PROJECT_VERSION doxyfile_demo →
       ¬ occurs PROJECT_NAME doxyfile_demo → c2 = doxyfile_demo).
Proof.
  apply (patch_replaces_placeholders "Doxyfile" (Some (L "2.0.0")) demo_world
           demo_world
           (log (EvRead "README.md") (log (EvExists "README.md") demo_world))
           (L "2.0.0") (L "Demo") (regular doxyfile_demo));
    vm_compute; reflexivity.
Defined.

(** Occurrences are those [str.replace] finds: from left to right, none
    overlapping another, the name's in the text that the replacement of the
    version has left.  Where the two tokens share a [%], the version's is
    the one replaced. *)
Lemma overlapping_tokens :
  replace PROJECT_NAME (L "Demo")
    (replace PROJECT_VERSION (L "2.0.0") (L "%PROJECT_NAME%PROJECT_VERSION%"))
  = L "%PROJECT_NAME2.0.0".
Proof. by vm_compute. Qed.

(** The example of the specification. *)
Lemma patch_demo :
  files (snd (update_doxyfile "Doxyfile" (Some (L "2.0.0")) demo_world))
    !! "Doxyfile"%string
  = Some (regular (L "Version: 2.0.0, Name: Demo")).
Proof. vm_compute. reflexivity. Qed.

(** *** C2 *)

(** C2.  When resolving the version fails, or resolving the project name
    fails after it, the patch fails with that error; no file has changed
    and nothing was written. *)
Theorem failed_resolution_writes_nothing (tgt : path) (ver : option str)
    (w : world) (e : error) :
  (fst (resolve_version ver w) = Err e
   ∨ ∃ v w1, resolve_version ver w = (Ok v, w1)
       ∧ fst (_parse_project_name "README.md" w1) = Err e) →
  fst (update_doxyfile tgt ver w) = Err e
  ∧ files (snd (update_doxyfile tgt ver w)) = files w
  ∧ writes (trace (snd (update_doxyfile tgt ver w))) = writes (trace w).
Proof.
  pose proof (resolve_version_unchanged ver w) as U1.
  rewrite update_doxyfile_run.
  destruct (resolve_version ver w) as [[v|e1] w1] eqn:Hv; simpl in *.
  - pose proof (parse_project_name_unchanged "README.md" w1) as U2.
    intros [[=]|(v' & w1' & [= <- <-] & Hn)].
    destruct (_parse_project_name "README.md" w1) as [[n|e2] w2]; simpl in *;
      [done|]. injection Hn as ->. split; [done|].
    by apply (unchanged_trans w w1 w2).
  - intros [[= ->]|(v' & w1' & [=] & _)]. split; [done|]. apply U1.
Qed.

Lemma failed_resolution_writes_nothing_witness :
  fst (update_doxyfile "Doxyfile" (Some (L "bad-version")) demo_world)
  = Err InvalidVersionFormat
  ∧ files (snd (update_doxyfile "Doxyfile" (Some (L "bad-version")) demo_world))
    = files demo_world
  ∧ writes (trace (snd (update_doxyfile "Doxyfile" (Some (L "bad-version"))
                          demo_world)))
    = writes (trace demo_world).
Proof.
  apply failed_resolution_writes_nothing. left. vm_compute. reflexivity.
Defined.

(** *** C3 *)

(** C3, as stated, fails: with no file at all, the patch of a missing
    target reports the missing build descriptor, not the missing target;
    and with both descriptors in place, the missing target is reported
    only after both have been read. *)
Lemma missing_target_reported_late :
  files (world_of []) !! "Doxyfile"%string = None
  ∧ fst (update_doxyfile "Doxyfile" None (world_of []))
    = Err (SourceFileMissing "CMakeLists.txt")
  ∧ files (world_of [("CMakeLists.txt"%string, cmake_plain);
                     ("README.md"%string, readme_demo)])
      !! "Doxyfile"%string = None
  ∧ update_doxyfile "Doxyfile" None
      (world_of [("CMakeLists.txt"%string, cmake_plain);
                 ("README.md"%string, readme_demo)])
    = (Err TargetFileMissing,
       {| files := files (world_of [("CMakeLists.txt"%string, cmake_plain);
                                    ("README.md"%string, readme_demo)]);
          trace := [EvExists "Doxyfile"; EvRead "README.md";
                    EvExists "README.md"; EvRead "CMakeLists.txt";
                    EvExists "CMakeLists.txt"] |}).
Proof. vm_compute. repeat split. Qed.

Lemma and_last (A B C D E : Prop) : E → A ∧ B ∧ C ∧ D → A ∧ B ∧ C ∧ D ∧ E.
Proof. tauto. Qed.

(** C3, amended.  When the target does not exist, no file changes and
    nothing is written; a failure to resolve the version or the name is
    what the patch reports; when both are resolved the patch fails with
    [TargetFileMissing], and the check of the target is the call that
    follows the reading of the readme.  In particular, when a descriptor
    is missing too: a missing readme is reported, as [SourceFileMissing],
    whenever the version has been resolved; a missing build descriptor is
    reported, as [SourceFileMissing], when there is no explicit version or
    an empty one.  With an explicit version that is not empty the build
    descriptor is not looked at: a version that is not accepted gives
    [InvalidVersionFormat], and with one that is accepted the patch
    reports the failure of the name or, when the name is resolved,
    [TargetFileMissing]. *)
Theorem missing_target_after_resolution (tgt : path) (ver : option str)
    (w : world) :
  files w !! tgt = None →
  unchanged w (snd (update_doxyfile tgt ver w))
  ∧ (∀ e, fst (resolve_version ver w) = Err e →
       fst (update_doxyfile tgt ver w) = Err e)
  ∧ (∀ v w1, resolve_version ver w = (Ok v, w1) →
       (∀ e, fst (_parse_project_name "README.md" w1) = Err e →
          fst (update_doxyfile tgt ver w) = Err e)
       ∧ (∀ n w2, _parse_project_name "README.md" w1 = (Ok n, w2) →
            fst (update_doxyfile tgt ver w) = Err TargetFileMissing
            ∧ trace (snd (update_doxyfile tgt ver w))
              = EvExists tgt :: EvRead "README.md" :: EvExists "README.md"
                :: trace w1)
       ∧ (files w !! "README.md" = None →
            fst (update_doxyfile tgt ver w)
            = Err (SourceFileMissing "README.md")))
  ∧ (truthy ver = false → files w !! "CMakeLists.txt" = None →
       fst (update_doxyfile tgt ver w)
       = Err (SourceFileMissing "CMakeLists.txt"))
  ∧ (truthy ver = true →
       (validate_version (the ver) = false →
          fst (update_doxyfile tgt ver w) = Err InvalidVersionFormat)
       ∧ (validate_version (the ver) = true →
          fst (update_doxyfile tgt ver w)
          = match fst (_parse_project_name "README.md" w) with
            | Ok _ => Err TargetFileMissing
            | Err e => Err e
            end)).
Proof.
  intros Hf. apply and_last.
  { intros Ht. rewrite update_doxyfile_run, resolve_version_run, Ht.
    split; intros ->; [done|].
    pose proof (parse_project_name_unchanged "README.md" w) as [Hf2 _].
    destruct (_parse_project_name "README.md" w) as [[n|e] w2];
      simpl in *; [|done].
    unfold rewrite_run. by rewrite Hf2, Hf. }
  pose proof (resolve_version_unchanged ver w) as U1.
  pose proof (resolve_version_run ver w) as Hres.
  rewrite update_doxyfile_run.
  destruct (resolve_version ver w) as [[v|e1] w1] eqn:Hv; simpl in *.
  - pose proof (parse_project_name_unchanged "README.md" w1) as U2.
    pose proof (parse_project_name_run "README.md" w1) as Hrun.
    assert (Hcm : truthy ver = false → files w !! "CMakeLists.txt" = None →
                  False).
    { intros Ht Hc. rewrite Ht, parse_cmake_version_run, Hc in Hres. done. }
    destruct (_parse_project_name "README.md" w1) as [[n|e2] w2] eqn:Hn;
      simpl in *.
    + assert (Hf2 : files w2 !! tgt = None).
      { destruct U1 as [E1 _], U2 as [E2 _]. by rewrite E2, E1. }
      unfold rewrite_run. rewrite Hf2. simpl.
      split; [by apply (unchanged_trans w w1 w2)|]. split; [done|].
      split; [|by intros Ht Hc; destruct (Hcm Ht Hc)].
      intros v' w1' [= <- <-]. rewrite Hn. split; [done|]. split.
      * intros n' w2' [= <- <-]. split; [done|]. f_equal.
        destruct (files w1 !! "README.md") as [rd|]; [|done].
        destruct (readable rd); [|done].
        destruct (is_empty _); [done|]. by injection Hrun as _ ->.
      * intros Hno. destruct U1 as [E1 _]. by rewrite E1, Hno in Hrun.
    + split; [by apply (unchanged_trans w w1 w2)|]. split; [done|].
      split; [|by intros Ht Hc; destruct (Hcm Ht Hc)].
      intros v' w1' [= <- <-]. rewrite Hn. split; [by intros e [= ->]|].
      split; [done|]. intros Hno. destruct U1 as [E1 _].
      rewrite E1, Hno in Hrun. by injection Hrun as ->.
  - split; [done|]. split; [by intros e [= ->]|]. split; [done|].
    intros Ht Hc. rewrite Ht, parse_cmake_version_run, Hc in Hres.
    by injection Hres as ->.
Qed.

Lemma missing_target_after_resolution_witness :
  unchanged demo_world_no_cmake
    (snd (update_doxyfile "docs/Doxyfile" (Some (L "2.0.0"))
            demo_world_no_cmake))
  ∧ fst (update_doxyfile "docs/Doxyfile" (Some (L "2.0.0"))
           demo_world_no_cmake)
    = Err TargetFileMissing
  ∧ fst (update_doxyfile "docs/Doxyfile" None demo_world_no_cmake)
    = Err (SourceFileMissing "CMakeLists.txt").
Proof.
  assert (Hno : files demo_world_no_cmake !! "docs/Doxyfile"%string = None)
    by (vm_compute; reflexivity).
  destruct (missing_target_after_resolution "docs/Doxyfile"
              (Some (L "2.0.0")) demo_world_no_cmake Hno)
    as (U & _ & _ & _ & He).
  destruct (missing_target_after_resolution "docs/Doxyfile" None
              demo_world_no_cmake Hno)
    as (_ & _ & _ & Hc & _).
  split; [exact U|]. split.
  - etransitivity; [apply (He eq_refl)|]; vm_compute; reflexivity.
  - apply Hc; vm_compute; reflexivity.
Defined.

(** No build descriptor, no readme and no target: an explicit version
    that is not accepted is what the patch reports. *)
Lemma missing_target_invalid_version :
  fst (update_doxyfile "Doxyfile" (Some (L "bad")) (world_of []))
  = Err InvalidVersionFormat.
Proof. by vm_compute. Qed.

(** *** C4 *)

(** C4: [validate_version] accepts a version that is followed by a
    newline, which is not of the shape [D.D.D] or [D.D.D.D]. *)
Theorem validate_version_accepts_trailing_newline :
  validate_version (L "1.2.3" ++ [newline]) = true
  ∧ ¬ version_shape (L "1.2.3" ++ [newline]).
Proof.
  split; [by vm_compute|]. intros H%version_shape_chars. by vm_compute in H.
Qed.

(** *** C5 *)

(** C5, as stated, fails: with a fix-level declaration next to it, the
    value [1.2.3] of the project declaration is not what is returned; the
    version that is returned has four parts. *)
Lemma cmake_version_with_fix_level :
  declares_project cmake_fix_upper (L "1.2.3")
  ∧ fst (resolve_version None
           (world_of [("CMakeLists.txt"%string, cmake_fix_upper)]))
    = Ok (L "1.2.3.4")
  ∧ ¬ three_part (L "1.2.3.4").
Proof.
  split; [|split].
  - assert (H : re_search project_version_flags project_version_pattern
                  cmake_fix_upper
                = Some {| m_start := 0; m_end := 26;
                          m_groups := [(1, L "1.2.3")] |})
      by (by vm_compute).
    by apply re_search_project in H.
  - by vm_compute.
  - intros H%three_part_dots. by vm_compute in H.
Qed.

(** C5, amended.  With no explicit version, resolving the version of a
    readable build descriptor fails with [VersionNotFound] exactly when
    the descriptor has no project declaration; when it has one, a version
    is returned, and the version returned is the one [resolved_from]
    describes and no other: the value [x.y.z] of the project declaration
    that starts first, read off the last version clause between its
    parentheses with every digit of [z], alone when the descriptor has no
    fix-level declaration, and followed by a dot and the fix level of the
    fix-level declaration that starts first when it has one. *)
Theorem cmake_version_of_declarations (w : world) (nd : node) :
  files w !! "CMakeLists.txt" = Some nd → readable nd = true →
  (fst (resolve_version None w) = Err VersionNotFound
   ↔ ∀ v, ¬ declares_project (data nd) v)
  ∧ ((∃ v, declares_project (data nd) v) →
     ∃ r, fst (resolve_version None w) = Ok r)
  ∧ (∀ r, fst (resolve_version None w) = Ok r ↔ resolved_from (data nd) r).
Proof.
  intros Hf Hr. rewrite resolve_version_run. simpl.
  rewrite parse_cmake_version_run, Hf. simpl. rewrite Hr. simpl.
  split; [apply version_of_not_found|].
  split; [intros [v Hv]; by apply (version_of_declared _ v)|].
  apply version_of_iff.
Qed.

Lemma cmake_version_of_declarations_witness :
  (fst (resolve_version None demo_world) = Err VersionNotFound
   ↔ ∀ v, ¬ declares_project cmake_plain v)
  ∧ ((∃ v, declares_project cmake_plain v) →
     ∃ r, fst (resolve_version None demo_world) = Ok r)
  ∧ (∀ r, fst (resolve_version None demo_world) = Ok r
          ↔ resolved_from cmake_plain r).
Proof.
  apply (cmake_version_of_declarations demo_world (regular cmake_plain));
    vm_compute; reflexivity.
Defined.

(** The examples of the specification. *)
Lemma cmake_version_demo :
  fst (resolve_version None demo_world) = Ok (L "1.2.3")
  ∧ fst (resolve_version None (world_of [("CMakeLists.txt"%string, L "")]))
    = Err VersionNotFound.
Proof. by vm_compute. Qed.

(** A value is returned with every digit of its last part: [12.34.5] is
    the value of a project declaration of the text, and is not what is
    returned. *)
Lemma cmake_version_every_digit :
  resolved_from cmake_long_part (L "12.34.56")
  ∧ ¬ resolved_from cmake_long_part (L "12.34.5")
  ∧ declares_project cmake_long_part (L "12.34.5").
Proof.
  split; [by apply version_of_iff; vm_compute|].
  split; [intros H%version_of_iff; by vm_compute in H|].
  exists [], cmake_long_part, []. split; [done|].
  exists (L "project"), [], (L "Foo "), (L "VERSION"), (L " "), (L "6").
  split; [done|]. split; [by repeat constructor|].
  split; [constructor|]. split; [by repeat constructor|].
  split; [by repeat constructor|]. split; [by repeat constructor|].
  split; [|by repeat constructor].
  exists (L "12"), (L "34"), (L "5").
  by repeat (split; [by repeat constructor|]).
Qed.

(** Of two version clauses in one declaration the last is the one read. *)
Lemma cmake_version_last_clause :
  resolved_from cmake_two_clauses (L "4.5.6")
  ∧ ¬ resolved_from cmake_two_clauses (L "1.2.3").
Proof.
  split; [by apply version_of_iff; vm_compute|].
  intros H%version_of_iff. by vm_compute in H.
Qed.

(** *** C6 *)

(** C6: the fix level of [set(VERSION_CPPFIX "4")] is not appended; only
    the spelling [SET] is recognised, while [project] is in any case. *)
Theorem lower_case_fix_level_ignored :
  fst (resolve_version None
         (world_of [("CMakeLists.txt"%string, cmake_fix_lower)]))
  = Ok (L "1.2.3")
  ∧ fst (resolve_version None
           (world_of [("CMakeLists.txt"%string, cmake_fix_upper)]))
    = Ok (L "1.2.3.4").
Proof. by vm_compute. Qed.

(** *** C7 *)

(** C7, as stated, fails: the script reads the first line, also when it
    is empty, and takes every [#] out of it, not only the leading ones. *)
Lemma project_name_not_first_heading :
  claimed_project_name readme_blank_first = Ok (L "MyProject")
  ∧ fst (_parse_project_name "README.md"
           (world_of [("README.md"%string, readme_blank_first)]))
    = Err EmptyProjectName
  ∧ claimed_project_name readme_inner_sharp = Ok (L "C# binding")
  ∧ fst (_parse_project_name "README.md"
           (world_of [("README.md"%string, readme_inner_sharp)]))
    = Ok (L "C binding").
Proof. vm_compute. repeat split. Qed.

(** C7, amended.  Resolving the project name of a readable readme returns
    its first line with every [#] removed and the white space around the
    rest stripped, and fails with [EmptyProjectName] exactly when that is
    empty. *)
Theorem project_name_from_first_line (w : world) (nd : node) :
  files w !! "README.md" = Some nd → readable nd = true →
  fst (_parse_project_name "README.md" w)
  = (if is_empty (strip (filter (λ a, a ≠ sharp) (first_line (data nd))))
     then Err EmptyProjectName
     else Ok (strip (filter (λ a, a ≠ sharp) (first_line (data nd))))).
Proof.
  intros Hf Hr. rewrite parse_project_name_run, Hf. simpl. rewrite Hr.
  unfold name_of. rewrite project_name_of_first_line.
  by destruct (is_empty _).
Qed.

Lemma project_name_from_first_line_witness :
  fst (_parse_project_name "README.md" demo_world)
  = (if is_empty (strip (filter (λ a, a ≠ sharp) (first_line readme_demo)))
     then Err EmptyProjectName
     else Ok (strip (filter (λ a, a ≠ sharp) (first_line readme_demo)))).
Proof.
  apply (project_name_from_first_line demo_world (regular readme_demo));
    vm_compute; reflexivity.
Defined.

(** The examples of the specification. *)
Lemma project_name_demo :
  fst (_parse_project_name "README.md"
         (world_of [("README.md"%string, L "# MyProject")]))
  = Ok (L "MyProject")
  ∧ fst (_parse_project_name "README.md"
           (world_of [("README.md"%string, L "#   ")]))
    = Err EmptyProjectName.
Proof. by vm_compute. Qed.

(** *** C8 *)

(** C8, as stated, fails: the empty text is an explicit version, and with
    it the result depends on the build descriptor. *)
Lemma empty_version_consults_descriptor :
  delete "CMakeLists.txt" (files demo_world)
  = delete "CMakeLists.txt" (files demo_world_no_cmake)
  ∧ fst (update_doxyfile "Doxyfile" (Some []) demo_world) = Ok ()
  ∧ fst (update_doxyfile "Doxyfile" (Some []) demo_world_no_cmake)
    = Err (SourceFileMissing "CMakeLists.txt").
Proof. vm_compute. repeat split. Qed.

(** So does the result of patching the build descriptor itself. *)
Lemma patching_the_descriptor_itself :
  fst (update_doxyfile "CMakeLists.txt" (Some (L "2.0.0")) demo_world) = Ok ()
  ∧ fst (update_doxyfile "CMakeLists.txt" (Some (L "2.0.0"))
           demo_world_no_cmake)
    = Err TargetFileMissing.
Proof. by vm_compute. Qed.

Lemma same_calls_avoiding_nil p t1 t2 : same_calls_avoiding p t1 t1 t2 t2.
Proof. exists []. by repeat split. Qed.

Lemma same_calls_avoiding_cons p ev t1 t1' t2 t2' :
  event_path ev ≠ p → same_calls_avoiding p t1 t1' t2 t2' →
  same_calls_avoiding p t1 (ev :: t1') t2 (ev :: t2').
Proof.
  intros Hev (evs & -> & -> & H). exists (ev :: evs).
  repeat split. by constructor.
Qed.

(** The two runs have ended the same way, at the same calls. *)
Ltac same_calls :=
  by repeat (apply same_calls_avoiding_cons || apply same_calls_avoiding_nil).

Ltac same_outcome := simpl; split; [done|]; split; [done|]; same_calls.

(** C8, amended.  With an explicit version that is not empty and a target
    other than the build descriptor, two worlds that agree on every file
    but [CMakeLists.txt] give the same result and the same calls, none of
    them about [CMakeLists.txt], and they still agree on every other file
    afterwards. *)
Theorem explicit_version_ignores_descriptor (tgt : path) (v : str)
    (w1 w2 : world) :
  v ≠ [] → tgt ≠ "CMakeLists.txt"%string →
  delete "CMakeLists.txt" (files w1) = delete "CMakeLists.txt" (files w2) →
  fst (update_doxyfile tgt (Some v) w1) = fst (update_doxyfile tgt (Some v) w2)
  ∧ delete "CMakeLists.txt" (files (snd (update_doxyfile tgt (Some v) w1)))
    = delete "CMakeLists.txt" (files (snd (update_doxyfile tgt (Some v) w2)))
  ∧ same_calls_avoiding "CMakeLists.txt"
      (trace w1) (trace (snd (update_doxyfile tgt (Some v) w1)))
      (trace w2) (trace (snd (update_doxyfile tgt (Some v) w2))).
Proof.
  intros Hv Htgt Hd.
  assert (Hl : ∀ p, p ≠ "CMakeLists.txt"%string →
                 files w1 !! p = files w2 !! p).
  { intros p Hp.
    rewrite <- (lookup_delete_ne (files w1) "CMakeLists.txt"%string p),
      <- (lookup_delete_ne (files w2) "CMakeLists.txt"%string p) by done.
    by rewrite Hd. }
  assert (Hreadme : "README.md"%string ≠ "CMakeLists.txt"%string) by done.
  rewrite !update_doxyfile_run, !resolve_version_run.
  destruct v as [|c v]; [done|]. simpl.
  destruct (validate_version (c :: v)).
  2:{ same_outcome. }
  rewrite !parse_project_name_run, <- (Hl "README.md"%string) by done.
  destruct (files w1 !! "README.md"%string) as [rd|].
  2:{ same_outcome. }
  simpl. destruct (readable rd).
  2:{ same_outcome. }
  destruct (is_empty _).
  { same_outcome. }
  unfold rewrite_run. simpl. rewrite <- (Hl tgt) by done.
  destruct (files w1 !! tgt) as [nd|].
  2:{ same_outcome. }
  destruct (readable nd).
  2:{ same_outcome. }
  destruct (writable nd); simpl.
  - split; [done|]. split.
    + rewrite !(delete_insert_ne _ "CMakeLists.txt"%string tgt) by done.
      by rewrite Hd.
    + same_calls.
  - same_outcome.
Qed.

Lemma explicit_version_ignores_descriptor_witness :
  fst (update_doxyfile "Doxyfile" (Some (L "2.0.0")) demo_world)
  = fst (update_doxyfile "Doxyfile" (Some (L "2.0.0")) demo_world_no_cmake)
  ∧ delete "CMakeLists.txt"
      (files (snd (update_doxyfile "Doxyfile" (Some (L "2.0.0")) demo_world)))
    = delete "CMakeLists.txt"
        (files (snd (update_doxyfile "Doxyfile" (Some (L "2.0.0"))
                       demo_world_no_cmake)))
  ∧ same_calls_avoiding "CMakeLists.txt"
      (trace demo_world)
      (trace (snd (update_doxyfile "Doxyfile" (Some (L "2.0.0")) demo_world)))
      (trace demo_world_no_cmake)
      (trace (snd (update_doxyfile "Doxyfile" (Some (L "2.0.0"))
                     demo_world_no_cmake))).
Proof.
  apply (explicit_version_ignores_descriptor "Doxyfile" (L "2.0.0")
           demo_world demo_world_no_cmake);
    [discriminate | discriminate | vm_compute; reflexivity].
Defined.

(** *** C9 *)

Lemma rewrite_run_valid p v n w :
  fst (rewrite_run p v n w) ≠ Err InvalidVersionFormat.
Proof.
  unfold rewrite_run. destruct (files w !! p) as [nd|]; [|done].
  destruct (readable nd); [|done]. by destruct (writable nd).
Qed.

Lemma parse_project_name_valid p w :
  fst (_parse_project_name p w) ≠ Err InvalidVersionFormat.
Proof.
  rewrite parse_project_name_run. destruct (files w !! p) as [nd|]; [|done].
  simpl. destruct (readable nd); [|done]. by destruct (is_empty _).
Qed.

(** The calls of a run come on top of the calls made before it. *)
Lemma trace_extends_cons (e : event) (t t0 : list event) :
  (∃ evs, t = evs ++ t0) → ∃ evs, e :: t = evs ++ t0.
Proof. intros [evs ->]. by exists (e :: evs). Qed.

Ltac trace_extends :=
  repeat first [by exists [] | apply trace_extends_cons].

Lemma parse_project_name_trace p w :
  ∃ evs, trace (snd (_parse_project_name p w)) = evs ++ trace w.
Proof.
  rewrite parse_project_name_run. destruct (files w !! p) as [nd|]; simpl;
    [|trace_extends].
  destruct (readable nd); [|simpl; trace_extends].
  destruct (is_empty _); simpl; trace_extends.
Qed.

Lemma rewrite_run_trace p v n w :
  ∃ evs, trace (snd (rewrite_run p v n w)) = evs ++ trace w.
Proof.
  unfold rewrite_run. destruct (files w !! p) as [nd|]; simpl;
    [|trace_extends].
  destruct (readable nd); [|simpl; trace_extends].
  destruct (writable nd); simpl; trace_extends.
Qed.

Lemma parse_cmake_version_first_call p w :
  ∃ evs, trace (snd (_parse_cmake_version p w))
         = evs ++ EvExists p :: trace w.
Proof.
  rewrite parse_cmake_version_run. destruct (files w !! p) as [nd|]; simpl;
    [|trace_extends].
  destruct (readable nd); simpl; trace_extends.
Qed.

Lemma trace_extends_trans (t2 t1 t0 : list event) :
  (∃ evs, t2 = evs ++ t1) → (∃ evs, t1 = evs ++ t0) → ∃ evs, t2 = evs ++ t0.
Proof. intros [e2 ->] [e1 ->]. exists (e2 ++ e1). by rewrite app_assoc. Qed.

(** C9.  With the empty text as explicit version the patch does not fail
    with [InvalidVersionFormat]: the version is resolved by reading the
    build descriptor, as it is with no explicit version.  The resolution
    is that of [CMakeLists.txt], and what it returns for a readable
    descriptor is the version [resolved_from] describes; the whole run is
    the run with no explicit version; its first call looks for
    [CMakeLists.txt]; when that resolution fails, with
    [SourceFileMissing] when the descriptor is missing, the failure is
    what the patch reports; and when it returns [v], the name is resolved
    to [n] and the target can be read and written, the patch succeeds and
    the target holds its text with [v] and [n] in the place of the
    tokens. *)
Theorem empty_version_is_no_version (tgt : path) (w : world) :
  resolve_version (Some []) w = _parse_cmake_version "CMakeLists.txt" w
  ∧ (∀ cm, files w !! "CMakeLists.txt" = Some cm → readable cm = true →
       ∀ r, fst (resolve_version (Some []) w) = Ok r
            ↔ resolved_from (data cm) r)
  ∧ update_doxyfile tgt (Some []) w = update_doxyfile tgt None w
  ∧ fst (update_doxyfile tgt (Some []) w) ≠ Err InvalidVersionFormat
  ∧ (∃ evs, trace (snd (update_doxyfile tgt (Some []) w))
            = evs ++ EvExists "CMakeLists.txt" :: trace w)
  ∧ (∀ e, fst (_parse_cmake_version "CMakeLists.txt" w) = Err e →
       fst (update_doxyfile tgt (Some []) w) = Err e)
  ∧ (files w !! "CMakeLists.txt" = None →
       fst (update_doxyfile tgt (Some []) w)
       = Err (SourceFileMissing "CMakeLists.txt"))
  ∧ (∀ v w1 n w2 nd,
       _parse_cmake_version "CMakeLists.txt" w = (Ok v, w1) →
       _parse_project_name "README.md" w1 = (Ok n, w2) →
       files w !! tgt = Some nd → readable nd = true → writable nd = true →
       fst (update_doxyfile tgt (Some []) w) = Ok ()
       ∧ files (snd (update_doxyfile tgt (Some []) w))
         = <[tgt := regular (replace PROJECT_NAME n
                               (replace PROJECT_VERSION v (data nd)))]>
             (files w)).
Proof.
  split; [done|].
  split.
  { intros cm Hf Hr r. rewrite resolve_version_run. simpl.
    rewrite parse_cmake_version_run, Hf. simpl. rewrite Hr. simpl.
    apply version_of_iff. }
  split; [done|].
  rewrite update_doxyfile_run, resolve_version_run. simpl.
  pose proof (parse_cmake_version_valid "CMakeLists.txt" w) as Hc.
  pose proof (parse_cmake_version_first_call "CMakeLists.txt" w) as Ht.
  pose proof (parse_cmake_version_unchanged "CMakeLists.txt" w) as [Hf1 _].
  pose proof (parse_cmake_version_run "CMakeLists.txt" w) as Hrun.
  destruct (_parse_cmake_version "CMakeLists.txt" w) as [[v|e] w1];
    simpl in *.
  - pose proof (parse_project_name_valid "README.md" w1) as Hn.
    pose proof (parse_project_name_trace "README.md" w1) as Ht2.
    pose proof (parse_project_name_unchanged "README.md" w1) as [Hf2 _].
    destruct (_parse_project_name "README.md" w1) as [[n|e] w2] eqn:Hpn;
      simpl in *.
    + split; [apply rewrite_run_valid|]. split.
      { eapply trace_extends_trans; [apply rewrite_run_trace|].
        by eapply trace_extends_trans. }
      split; [done|]. split.
      { intros Hno. by rewrite Hno in Hrun. }
      intros v' w1' n' w2' nd [= <- <-] Hpn' Hf Hr Hw.
      rewrite Hpn in Hpn'. injection Hpn' as <- <-.
      unfold rewrite_run. by rewrite Hf2, Hf1, Hf, Hr, Hw.
    + split; [by intros [= ->]|].
      split; [by eapply trace_extends_trans|].
      split; [done|]. split; [intros Hno; by rewrite Hno in Hrun|].
      intros v' w1' n' w2' nd [= <- <-] Hpn'. by rewrite Hpn in Hpn'.
  - split; [by intros [= ->]|]. split; [done|].
    split; [by intros ? [= ->]|]. split; [|done].
    intros Hno. rewrite Hno in Hrun. by injection Hrun as ->.
Qed.

Lemma empty_version_is_no_version_witness :
  fst (update_doxyfile "Doxyfile" (Some []) demo_world) = Ok ()
  ∧ files (snd (update_doxyfile "Doxyfile" (Some []) demo_world))
    = <["Doxyfile"%string := regular (L "Version: 1.2.3, Name: Demo")]>
        (files demo_world).
Proof.
  apply (proj2 (proj2 (proj2 (proj2 (proj2 (proj2 (proj2
           (empty_version_is_no_version "Doxyfile" demo_world)))))))
           (L "1.2.3")
           (log (EvRead "CMakeLists.txt")
              (log (EvExists "CMakeLists.txt") demo_world))
           (L "Demo")
           (log (EvRead "README.md")
              (log (EvExists "README.md")
                 (log (EvRead "CMakeLists.txt")
                    (log (EvExists "CMakeLists.txt") demo_world))))
           (regular doxyfile_demo));
    vm_compute; reflexivity.
Defined.

(** *** C10 *)

(** C10.  Whatever the build descriptor, the version composed of the
    match of the project pattern, alone or with the match of the fix-level
    pattern behind it, passes [validate_version]; the script never raises
    [InvalidVersionFormat] out of [_parse_cmake_version]. *)
Theorem revalidation_never_fails :
  (∀ content m,
     re_search project_version_flags project_version_pattern content = Some m →
     validate_version (group m 1) = true
     ∧ ∀ m', re_search no_flags cpp_fix_pattern content = Some m' →
         validate_version (group m 1 ++ L "." ++ group m' 1) = true)
  ∧ (∀ p w, fst (_parse_cmake_version p w) ≠ Err InvalidVersionFormat).
Proof.
  split; [|apply parse_cmake_version_valid].
  intros content m Hm%re_search_project.
  destruct (composed_version_valid _ _ Hm) as [Hv Hvn].
  split; [done|]. intros m' Hm'%re_search_cpp_fix. by apply Hvn.
Qed.

Lemma revalidation_never_fails_witness :
  validate_version (L "1.2.3") = true
  ∧ ∀ m', re_search no_flags cpp_fix_pattern cmake_fix_upper = Some m' →
      validate_version (L "1.2.3" ++ L "." ++ group m' 1) = true.
Proof.
  apply (proj1 revalidation_never_fails cmake_fix_upper
           {| m_start := 0; m_end := 26; m_groups := [(1, L "1.2.3")] |}).
  vm_compute. reflexivity.
Defined.

End Claims.

(** ** Further properties of the script *)

Module Extras.
Import ReSpec Shapes TextFacts Run Versions Choice.

(** Lines 143 to 148: the run of the script on its parsed arguments, and
    its exit status.  The script ends with status 0 when [update_doxyfile]
    returns; every exception it raises is an [Exception], caught, logged
    and turned into [SystemExit(1)].  The parsing of the command line by
    [argparse] (lines 138 to 141) is not modelled. *)
Definition main (doxyfile_path : path) (version : option str)
    : world → nat * world := λ w,
  match update_doxyfile doxyfile_path version w with
  | (Ok _, w') => (0, w')
  | (Err _, w') => (1, w')
  end.

(** A character of one of the two placeholders. *)
Definition token_char (c : ascii) : bool :=
  bool_decide (c ∈ PROJECT_VERSION) || bool_decide (c ∈ PROJECT_NAME).

(** The calls of [evs] are about the path [p], and none is a write. *)
Definition reads_of (p : path) (evs : list event) : Prop :=
  Forall (λ ev, ev = EvExists p ∨ ev = EvRead p) evs.

(** The computation [m] at the path [p], run in [w]: it changes no file,
    its calls are about [p] and none is a write, and what it returns
    depends on the file at [p] only. *)
Definition reads_only_at (p : path) (m : M str) (w : world) : Prop :=
  files (snd (m w)) = files w
  ∧ (∃ evs, trace (snd (m w)) = evs ++ trace w ∧ reads_of p evs)
  ∧ ∀ w2, files w2 !! p = files w !! p → fst (m w2) = fst (m w).

(** No file has changed between [w] and [w']. *)
Definition unchanged_files (w w' : world) : Prop := files w' = files w.

(** The version resolves: the explicit version, when it is not empty, is
    one [validate_version] accepts; with none, [CMakeLists.txt] can be
    read and has a project declaration. *)
Definition version_resolves (version : option str) (w : world) : Prop :=
  if truthy version then validate_version (the version) = true
  else ∃ nd, files w !! "CMakeLists.txt" = Some nd ∧ readable nd = true
         ∧ ∃ v, declares_project (data nd) v.

(** The name resolves: the readme at [p] can be read, and its first line
    is not empty once its [#] are taken out and it is stripped. *)
Definition name_resolves (p : path) (w : world) : Prop :=
  ∃ nd, files w !! p = Some nd ∧ readable nd = true
    ∧ strip (filter (λ a, a ≠ sharp) (first_line (data nd))) ≠ [].

(** No placeholder can come back into the target [tgt]: its text has no
    [%PROJECT_NAME%], or the project name of the readme has no character
    of the two placeholders. *)
Definition no_token_comes_back (tgt : path) (w : world) : Prop :=
  (∃ nd, files w !! tgt = Some nd ∧ ¬ occurs PROJECT_NAME (data nd))
  ∨ (∃ rd, files w !! "README.md" = Some rd
       ∧ forallb (λ c, negb (token_char c)) (name_of (data rd)) = true).

(** The text [update_doxyfile] writes. *)
Definition patched (version project_name text : str) : str :=
  replace PROJECT_NAME project_name (replace PROJECT_VERSION version text).

(** No character of [new] is one of [tok]. *)
Definition apart (new tok : str) : Prop := ∀ c, c ∈ new → c ∉ tok.

(** The world after a patch that went through. *)
Definition patched_world (tgt : path) (text : str) (w w2 : world) : world :=
  {| files := <[tgt := regular text]> (files w);
     trace := EvWrite tgt text :: EvRead tgt :: EvExists tgt :: trace w2 |}.

(** *** Occurrences after a replacement *)

Lemma occurs_around new tok a b x y :
  new ≠ [] → tok ≠ [] → apart new tok →
  a ++ new ++ b = x ++ tok ++ y →
  (∃ z, a = x ++ tok ++ z) ∨ (∃ z, b = z ++ tok ++ y).
Proof.
  intros Hn Ht Hap Heq.
  assert (Hhead : ∀ l1 l2 t1 t2 : str,
            l1 ≠ [] → l2 ≠ [] → l1 ++ t1 = l2 ++ t2 →
            ∃ c, c ∈ l1 ∧ c ∈ l2).
  { intros [|c l1] [|c' l2] t1 t2 H1 H2 H; try done.
    injection H as -> _. exists c'. split; apply elem_of_cons; by left. }
  apply app_eq_app in Heq as (l & [[-> Heq]|[-> Heq]]).
  - apply app_eq_app in Heq as (l2 & [[-> Heq]|[-> Heq]]).
    + left. destruct l2 as [|c l2].
      * exists []. by rewrite ?app_nil_r.
      * exfalso.
        destruct (Hhead new (c :: l2) b y Hn ltac:(done) Heq)
          as (d & Hd1 & Hd2).
        apply (Hap d Hd1). apply elem_of_app. by right.
    + left. by exists l2.
  - apply app_eq_app in Heq as (l2 & [[-> Heq]|[-> Heq]]).
    + right. destruct l2 as [|c l2].
      * exists []. simpl in *. by rewrite app_nil_r in *.
      * exfalso.
        destruct (Hhead tok (c :: l2) y b Ht ltac:(done) Heq)
          as (d & Hd1 & Hd2).
        apply (Hap d); [|done]. apply elem_of_app. by right.
    + right. exists l2. done.
Qed.

(** A replacement by a text that shares no character with [tok] makes no
    occurrence of [tok]. *)
Lemma replace_makes_no_occurrence tok old new s :
  old ≠ [] → new ≠ [] → tok ≠ [] → apart new tok →
  occurs tok (replace old new s) → occurs tok s.
Proof.
  intros Ho Hn Ht Hap.
  pose proof (replace_Replaced old new s Ho) as HR.
  induction HR as [s Hno|a b b' Hmin HR IH]; [done|].
  intros (x & y & Heq).
  apply occurs_around in Heq as [(z & ->)|(z & Hb)]; [| |done..].
  - exists x, (z ++ old ++ b). by rewrite <- ?app_assoc.
  - destruct IH as (x' & y' & ->); [by exists z, y|].
    exists (a ++ old ++ x'), y'. by rewrite <- ?app_assoc.
Qed.

(** And it leaves no occurrence of what it replaces. *)
Lemma replace_leaves_no_occurrence old new s :
  old ≠ [] → new ≠ [] → apart new old → ¬ occurs old (replace old new s).
Proof.
  intros Ho Hn Hap.
  pose proof (replace_Replaced old new s Ho) as HR.
  induction HR as [s Hno|a b b' Hmin HR IH]; [done|].
  intros (x & y & Heq).
  apply occurs_around in Heq as [(z & ->)|(z & Hb)]; [| |done..].
  - specialize (Hmin x (z ++ old ++ b)).
    rewrite <- !app_assoc in Hmin. specialize (Hmin eq_refl).
    rewrite !length_app in Hmin. destruct old; [done|]. simpl in Hmin. lia.
  - apply IH. by exists z, y.
Qed.

(** *** What the resolutions touch *)

Ltac reads :=
  unfold reads_of;
  repeat (apply List.Forall_cons; [auto|]); apply List.Forall_nil.

Lemma parse_project_name_local p w :
  reads_only_at p (_parse_project_name p) w.
Proof.
  unfold reads_only_at. rewrite parse_project_name_run.
  split; [|split].
  - destruct (files w !! p) as [nd|]; [|done]. simpl.
    destruct (readable nd); [|done]. by destruct (is_empty _).
  - destruct (files w !! p) as [nd|]; simpl.
    + exists [EvRead p; EvExists p]. split.
      * destruct (readable nd); [|done]. by destruct (is_empty _).
      * reads.
    + exists [EvExists p]. split; [done|]. reads.
  - intros w2 Hw. rewrite parse_project_name_run, Hw.
    destruct (files w !! p) as [nd|]; [|done]. simpl.
    destruct (readable nd); [|done]. by destruct (is_empty _).
Qed.

Lemma parse_cmake_version_local p w :
  reads_only_at p (_parse_cmake_version p) w.
Proof.
  unfold reads_only_at. rewrite parse_cmake_version_run.
  split; [|split].
  - destruct (files w !! p) as [nd|]; [|done]. simpl.
    by destruct (readable nd).
  - destruct (files w !! p) as [nd|]; simpl.
    + exists [EvRead p; EvExists p]. split.
      * by destruct (readable nd).
      * reads.
    + exists [EvExists p]. split; [done|]. reads.
  - intros w2 Hw. rewrite parse_cmake_version_run, Hw.
    destruct (files w !! p) as [nd|]; [|done]. simpl.
    by destruct (readable nd).
Qed.

Lemma resolve_version_local ver w w2 :
  files w2 !! "CMakeLists.txt" = files w !! "CMakeLists.txt" →
  fst (resolve_version ver w2) = fst (resolve_version ver w).
Proof.
  intros Hw. rewrite !resolve_version_run. destruct (truthy ver).
  - by destruct (validate_version _).
  - by apply parse_cmake_version_local.
Qed.

(** *** The parts of a name and of a version *)

Lemma elem_of_strip x s : x ∈ strip s → x ∈ s.
Proof.
  intros Hx. destruct (strip_decomp s) as (ws1 & ws2 & _ & _ & Hs).
  rewrite Hs, !elem_of_app. auto.
Qed.

Lemma first_line_no_newline s : newline ∉ first_line s.
Proof.
  induction s as [|c s IH]; simpl; [by intros ?%elem_of_nil|].
  destruct (Ascii.eqb c newline) eqn:Hc; [by intros ?%elem_of_nil|].
  intros [Hn|H]%elem_of_cons; [|done]. subst c.
  by rewrite Ascii.eqb_refl in Hc.
Qed.

Lemma name_of_first_line text :
  name_of text = strip (filter (λ a, a ≠ sharp) (first_line text)).
Proof. apply project_name_of_first_line. Qed.

Lemma elem_of_name_of x text :
  x ∈ name_of text → x ≠ sharp ∧ x ∈ first_line text.
Proof.
  rewrite name_of_first_line. intros Hx%elem_of_strip.
  by apply list_elem_of_filter in Hx.
Qed.

Lemma cmake_version_valid p w v w' :
  _parse_cmake_version p w = (Ok v, w') → validate_version v = true.
Proof.
  rewrite parse_cmake_version_run. intros H.
  destruct (files w !! p) as [nd|]; [|done]. simpl in H.
  destruct (readable nd); [|done]. injection H as H _.
  unfold version_of in H.
  destruct (re_search project_version_flags _ _); [|done].
  destruct (validate_version _) eqn:Hv; [|done]. simpl in H.
  by injection H as <-.
Qed.

Lemma version_of_shape content v :
  version_of content = Ok v → version_shape v.
Proof.
  intros Hv.
  destruct (version_of_cases content)
    as [[He _]|(u & Hu%declares_project_three_part
                & [[Hr _]|(n & Hn%declares_cpp_fix_digits & Hr)])];
    rewrite Hv in *.
  - done.
  - injection Hr as ->. by left.
  - injection Hr as ->. right. by exists u, n.
Qed.

(** *** X1 *)

(** X1.  [validate_version] accepts exactly the texts [D.D.D] and
    [D.D.D.D], each [D] one or more digits, and the same followed by one
    newline. *)
Theorem validate_version_accepts_exactly (s : str) :
  validate_version s = true
  ↔ version_shape s ∨ ∃ v, s = v ++ [newline] ∧ version_shape v.
Proof. apply validate_version_iff. Qed.

Lemma validate_version_accepts_exactly_witness :
  version_shape (L "10.2.3")
  ∨ ∃ v, L "10.2.3" = v ++ [newline] ∧ version_shape v.
Proof.
  apply (proj1 (validate_version_accepts_exactly (L "10.2.3"))).
  vm_compute. reflexivity.
Defined.

(** *** X2 *)

(** X2.  A version that [_parse_cmake_version] returns is [D.D.D] or
    [D.D.D.D] and nothing more: digits and dots only, and
    [validate_version] accepts it. *)
Theorem cmake_version_is_plain (p : path) (w w' : world) (v : str) :
  _parse_cmake_version p w = (Ok v, w') →
  version_shape v
  ∧ forallb version_char v = true
  ∧ validate_version v = true.
Proof.
  rewrite parse_cmake_version_run. intros H.
  assert (Hs : version_shape v).
  { destruct (files w !! p) as [nd|]; [|done]. simpl in H.
    destruct (readable nd); [|done]. injection H as H _.
    by apply version_of_shape in H. }
  split; [done|]. split; [by apply version_shape_chars|].
  by apply validate_version_shape.
Qed.

Lemma cmake_version_is_plain_witness :
  version_shape (L "1.2.3.4")
  ∧ forallb version_char (L "1.2.3.4") = true
  ∧ validate_version (L "1.2.3.4") = true.
Proof.
  apply (cmake_version_is_plain "CMakeLists.txt"
           (world_of [("CMakeLists.txt"%string, Claims.cmake_fix_upper)])
           (log (EvRead "CMakeLists.txt")
              (log (EvExists "CMakeLists.txt")
                 (world_of [("CMakeLists.txt"%string,
                             Claims.cmake_fix_upper)])))).
  vm_compute. reflexivity.
Defined.

(** *** X3 *)

(** X3.  The version [_parse_cmake_version] returns is determined by the
    text of the descriptor.  It is made of the chosen project value: the
    value of the project declaration that starts first, read off the last
    version clause between its parentheses with every digit of its last
    part; there is one such value only.  It is that value alone when the
    descriptor has no fix-level declaration; otherwise it is that value,
    a dot, and the fix level of the fix-level declaration that starts
    first, of which there is one only. *)
Theorem cmake_version_from_first_declarations (p : path) (w w' : world)
    (nd : node) (r : str) :
  files w !! p = Some nd →
  _parse_cmake_version p w = (Ok r, w') →
  ∃ v, chosen_project_value (data nd) v
    ∧ (∀ v', chosen_project_value (data nd) v' → v' = v)
    ∧ ((r = v ∧ ∀ n, ¬ declares_cpp_fix (data nd) n)
       ∨ ∃ n, chosen_fix_level (data nd) n
           ∧ (∀ n', chosen_fix_level (data nd) n' → n' = n)
           ∧ r = v ++ L "." ++ n).
Proof.
  intros Hf. rewrite parse_cmake_version_run, Hf. simpl.
  destruct (readable nd); [|done]. intros [= Hv _].
  apply version_of_resolved in Hv as (v & Hv & Hr).
  exists v. split; [done|].
  split; [intros v' Hv'; by apply (chosen_project_value_unique (data nd))|].
  destruct Hr as [Hr|(n & Hn & ->)]; [by left|]. right.
  exists n. split; [done|]. split; [|done].
  intros n' Hn'. by apply (chosen_fix_level_unique (data nd)).
Qed.

Lemma cmake_version_from_first_declarations_witness :
  ∃ v, chosen_project_value Claims.cmake_two_clauses v
    ∧ (∀ v', chosen_project_value Claims.cmake_two_clauses v' → v' = v)
    ∧ ((L "4.5.6" = v ∧ ∀ n, ¬ declares_cpp_fix Claims.cmake_two_clauses n)
       ∨ ∃ n, chosen_fix_level Claims.cmake_two_clauses n
           ∧ (∀ n', chosen_fix_level Claims.cmake_two_clauses n' → n' = n)
           ∧ L "4.5.6" = v ++ L "." ++ n).
Proof.
  apply (cmake_version_from_first_declarations "CMakeLists.txt"
           (world_of [("CMakeLists.txt"%string, Claims.cmake_two_clauses)])
           (log (EvRead "CMakeLists.txt")
              (log (EvExists "CMakeLists.txt")
                 (world_of [("CMakeLists.txt"%string,
                             Claims.cmake_two_clauses)])))
           (regular Claims.cmake_two_clauses));
    vm_compute; reflexivity.
Defined.

(** *** X4 *)

(** X4.  A project name that [_parse_project_name] returns is not empty,
    has no white space at either end, and has no [#] and no newline in
    it. *)
Theorem project_name_is_clean (p : path) (w w' : world) (n : str) :
  _parse_project_name p w = (Ok n, w') →
  n ≠ [] ∧ stripped n ∧ (sharp ∉ n) ∧ (newline ∉ n).
Proof.
  rewrite parse_project_name_run. intros H.
  destruct (files w !! p) as [nd|]; [|done]. simpl in H.
  destruct (readable nd); [|done].
  destruct (is_empty (name_of (data nd))) eqn:He; [done|].
  injection H as <- _. split; [by destruct (name_of (data nd))|].
  split; [apply strip_stripped|]. split.
  - by intros [? _]%elem_of_name_of.
  - intros [_ H]%elem_of_name_of. by apply first_line_no_newline in H.
Qed.

Lemma project_name_is_clean_witness :
  L "Demo" ≠ [] ∧ stripped (L "Demo") ∧ (sharp ∉ L "Demo")
  ∧ (newline ∉ L "Demo").
Proof.
  apply (project_name_is_clean "README.md" Claims.demo_world
           (log (EvRead "README.md")
              (log (EvExists "README.md") Claims.demo_world))).
  vm_compute. reflexivity.
Defined.

(** *** X5 *)

(** X5.  The two resolutions only read: [_parse_project_name] and
    [_parse_cmake_version] change no file, call nothing but [exists] and
    a read of the path they are given, and return what the file at that
    path alone determines. *)
Theorem resolutions_only_read (p : path) (w : world) :
  reads_only_at p (_parse_project_name p) w
  ∧ reads_only_at p (_parse_cmake_version p) w.
Proof.
  split; [apply parse_project_name_local|apply parse_cmake_version_local].
Qed.

Lemma resolutions_only_read_witness :
  reads_only_at "README.md" (_parse_project_name "README.md")
    Claims.demo_world
  ∧ reads_only_at "README.md" (_parse_cmake_version "README.md")
      Claims.demo_world.
Proof. apply (resolutions_only_read "README.md" Claims.demo_world). Defined.

(** *** How a run ends *)

Lemma update_doxyfile_ok tgt ver w v n nd w1 w2 :
  resolve_version ver w = (Ok v, w1) →
  _parse_project_name "README.md" w1 = (Ok n, w2) →
  files w !! tgt = Some nd → readable nd = true → writable nd = true →
  update_doxyfile tgt ver w
  = (Ok (), patched_world tgt (patched v n (data nd)) w w2).
Proof.
  intros Hv Hn Hf Hr Hw.
  pose proof (resolve_version_unchanged ver w) as [Hf1 _].
  pose proof (parse_project_name_unchanged "README.md" w1) as [Hf2 _].
  rewrite Hv in Hf1. rewrite Hn in Hf2. simpl in *.
  rewrite update_doxyfile_run, Hv, Hn. unfold rewrite_run.
  by rewrite Hf2, Hf1, Hf, Hr, Hw.
Qed.

Lemma update_doxyfile_outcome tgt ver w :
  (∃ e w', update_doxyfile tgt ver w = (Err e, w') ∧ unchanged_files w w')
  ∨ (∃ v n nd w1 w2,
       resolve_version ver w = (Ok v, w1)
       ∧ _parse_project_name "README.md" w1 = (Ok n, w2)
       ∧ files w !! tgt = Some nd ∧ readable nd = true ∧ writable nd = true
       ∧ update_doxyfile tgt ver w
         = (Ok (), patched_world tgt (patched v n (data nd)) w w2)).
Proof.
  pose proof (resolve_version_unchanged ver w) as [Hf1 Ht1].
  destruct (resolve_version ver w) as [[v|e] w1] eqn:Hv; simpl in *.
  2:{ left. exists e, w1. by rewrite update_doxyfile_run, Hv. }
  pose proof (parse_project_name_unchanged "README.md" w1) as [Hf2 Ht2].
  destruct (_parse_project_name "README.md" w1) as [[n|e] w2] eqn:Hn;
    simpl in *.
  2:{ left. exists e, w2. rewrite update_doxyfile_run, Hv, Hn.
      split; [done|]. unfold unchanged_files. congruence. }
  destruct (files w !! tgt) as [nd|] eqn:Hf.
  2:{ left. eexists _, _. rewrite update_doxyfile_run, Hv, Hn.
      unfold rewrite_run. rewrite Hf2, Hf1, Hf. split; [done|].
      unfold unchanged_files. simpl. congruence. }
  destruct (readable nd) eqn:Hr.
  2:{ left. eexists _, _. rewrite update_doxyfile_run, Hv, Hn.
      unfold rewrite_run. rewrite Hf2, Hf1, Hf, Hr. split; [done|].
      unfold unchanged_files. simpl. congruence. }
  destruct (writable nd) eqn:Hw.
  2:{ left. eexists _, _. rewrite update_doxyfile_run, Hv, Hn.
      unfold rewrite_run. rewrite Hf2, Hf1, Hf, Hr, Hw. split; [done|].
      unfold unchanged_files. simpl. congruence. }
  right. exists v, n, nd, w1, w2. repeat split; try done.
  by apply (update_doxyfile_ok tgt ver w v n nd w1 w2).
Qed.

Lemma resolve_version_ok_iff ver w :
  (∃ v w1, resolve_version ver w = (Ok v, w1)) ↔ version_resolves ver w.
Proof.
  unfold version_resolves. rewrite resolve_version_run.
  destruct (truthy ver).
  - destruct (validate_version (the ver)); split; try done.
    + by eexists _, _.
    + by intros (? & ? & ?).
  - rewrite parse_cmake_version_run. split.
    + intros (v & w1 & H).
      destruct (files w !! "CMakeLists.txt") as [nd|]; [|done]. simpl in H.
      destruct (readable nd) eqn:Hr; [|done]. injection H as H _.
      exists nd. split; [done|]. split; [done|].
      destruct (version_of_cases (data nd)) as [[He _]|(u & Hu & _)];
        [congruence|by exists u].
    + intros (nd & -> & -> & u & Hu). simpl.
      destruct (version_of_cases (data nd))
        as [[_ Hno]|(u' & _ & [[-> _]|(n & _ & ->)])].
      * by destruct (Hno u).
      * by eexists _, _.
      * by eexists _, _.
Qed.

Lemma parse_project_name_ok_iff p w :
  (∃ n w2, _parse_project_name p w = (Ok n, w2)) ↔ name_resolves p w.
Proof.
  unfold name_resolves. rewrite parse_project_name_run. split.
  - intros (n & w2 & H).
    destruct (files w !! p) as [nd|]; [|done]. simpl in H.
    destruct (readable nd) eqn:Hr; [|done].
    destruct (is_empty (name_of (data nd))) eqn:He; [done|].
    exists nd. split; [done|]. split; [done|].
    rewrite <- name_of_first_line. by destruct (name_of (data nd)).
  - intros (nd & -> & -> & Hne). simpl.
    rewrite <- name_of_first_line in Hne.
    destruct (name_of (data nd)); [done|]. by eexists _, _.
Qed.

Lemma update_doxyfile_ok_iff (tgt : path) (ver : option str) (w : world) :
  fst (update_doxyfile tgt ver w) = Ok ()
  ↔ version_resolves ver w ∧ name_resolves "README.md" w
    ∧ ∃ nd, files w !! tgt = Some nd ∧ readable nd = true
        ∧ writable nd = true.
Proof.
  split.
  - intros H.
    destruct (update_doxyfile_outcome tgt ver w)
      as [(e & w' & He & _)|(v & n & nd & w1 & w2 & Hv & Hn & Hf & Hr & Hw
                              & _)]; [by rewrite He in H|].
    split; [apply resolve_version_ok_iff; by exists v, w1|].
    split; [|by exists nd].
    pose proof (resolve_version_unchanged ver w) as [Hf1 _].
    rewrite Hv in Hf1. simpl in Hf1.
    assert (Hn1 : name_resolves "README.md" w1)
      by (apply parse_project_name_ok_iff; by exists n, w2).
    unfold name_resolves in *. by rewrite <- Hf1.
  - intros (Hv%resolve_version_ok_iff & Hn & nd & Hf & Hr & Hw).
    destruct Hv as (v & w1 & Hv).
    pose proof (resolve_version_unchanged ver w) as [Hf1 _].
    rewrite Hv in Hf1. simpl in Hf1.
    assert (Hn1 : name_resolves "README.md" w1)
      by (unfold name_resolves in *; by rewrite Hf1).
    apply parse_project_name_ok_iff in Hn1 as (n & w2 & Hn1).
    by rewrite (update_doxyfile_ok tgt ver w v n nd w1 w2).
Qed.

(** *** X6 *)

(** X6.  [update_doxyfile] goes through exactly when the version resolves
    (a non-empty explicit version that [validate_version] accepts, or
    else a readable [CMakeLists.txt] with a project declaration), the
    name resolves (a readable [README.md] whose first line, its [#] taken
    out and stripped, is not empty), and the target exists and can be
    read and written. *)
Theorem update_succeeds_exactly_when (tgt : path) (ver : option str)
    (w : world) :
  fst (update_doxyfile tgt ver w) = Ok ()
  ↔ version_resolves ver w ∧ name_resolves "README.md" w
    ∧ ∃ nd, files w !! tgt = Some nd ∧ readable nd = true
        ∧ writable nd = true.
Proof. apply update_doxyfile_ok_iff. Qed.

Lemma update_succeeds_exactly_when_witness :
  version_resolves None Claims.demo_world
  ∧ name_resolves "README.md" Claims.demo_world
  ∧ ∃ nd, files Claims.demo_world !! "Doxyfile"%string = Some nd
      ∧ readable nd = true ∧ writable nd = true.
Proof.
  apply (proj1 (update_succeeds_exactly_when "Doxyfile" None
                  Claims.demo_world)).
  vm_compute. reflexivity.
Defined.

(** *** X7 *)

(** X7.  A run of [update_doxyfile] writes to the target and to nothing
    else: every other file stays as it is, a run that fails leaves every
    file as it is, and the run adds at most one write, of the target, to
    the trace. *)
Theorem update_writes_target_only (tgt : path) (ver : option str)
    (w : world) :
  (∀ p, p ≠ tgt →
     files (snd (update_doxyfile tgt ver w)) !! p = files w !! p)
  ∧ (∀ e, fst (update_doxyfile tgt ver w) = Err e →
       files (snd (update_doxyfile tgt ver w)) = files w)
  ∧ (writes (trace (snd (update_doxyfile tgt ver w))) = writes (trace w)
     ∨ ∃ s, writes (trace (snd (update_doxyfile tgt ver w)))
            = EvWrite tgt s :: writes (trace w)).
Proof.
  pose proof (resolve_version_unchanged ver w) as U1.
  rewrite update_doxyfile_run.
  destruct (resolve_version ver w) as [[v|e1] w1]; simpl in *.
  2:{ destruct U1 as [-> ->]. split; [done|]. split; [done|]. by left. }
  pose proof (parse_project_name_unchanged "README.md" w1) as U2.
  destruct (_parse_project_name "README.md" w1) as [[n|e2] w2]; simpl in *.
  2:{ destruct U1 as [E1 T1], U2 as [E2 T2]. rewrite E2, E1, T2, T1.
      split; [done|]. split; [done|]. by left. }
  destruct U1 as [E1 T1], U2 as [E2 T2]. unfold rewrite_run.
  destruct (files w2 !! tgt) as [nd|]; simpl.
  2:{ rewrite E2, E1, T2, T1. split; [done|]. split; [done|]. by left. }
  destruct (readable nd); simpl.
  2:{ rewrite E2, E1, T2, T1. split; [done|]. split; [done|]. by left. }
  destruct (writable nd); simpl; rewrite E2, E1, T2, T1.
  - split; [|split; [done|by right; eexists]].
    intros p Hp. by rewrite lookup_insert_ne.
  - split; [done|]. split; [done|]. right. by eexists.
Qed.

Lemma update_writes_target_only_witness :
  (∀ p, p ≠ "Doxyfile"%string →
     files (snd (update_doxyfile "Doxyfile" None Claims.demo_world)) !! p
     = files Claims.demo_world !! p)
  ∧ (∀ e, fst (update_doxyfile "Doxyfile" None Claims.demo_world) = Err e →
       files (snd (update_doxyfile "Doxyfile" None Claims.demo_world))
       = files Claims.demo_world)
  ∧ (writes (trace (snd (update_doxyfile "Doxyfile" None Claims.demo_world)))
     = writes (trace Claims.demo_world)
     ∨ ∃ s, writes (trace (snd (update_doxyfile "Doxyfile" None
                                  Claims.demo_world)))
            = EvWrite "Doxyfile" s :: writes (trace Claims.demo_world)).
Proof.
  apply (update_writes_target_only "Doxyfile" None Claims.demo_world).
Defined.

(** *** X8 *)

Lemma version_shape_not_nil v : version_shape v → v ≠ [].
Proof.
  assert (H3 : ∀ u, three_part u → u ≠ []).
  { intros u (x & y & z & [Hx _] & _ & _ & ->). by destruct x. }
  intros [H|(u & n & Hu & _ & ->)]; [by apply H3|].
  apply H3 in Hu. by destruct u.
Qed.

Lemma resolved_version_valid ver w v w1 :
  resolve_version ver w = (Ok v, w1) → validate_version v = true.
Proof.
  rewrite resolve_version_run. destruct (truthy ver).
  - destruct (validate_version (the ver)) eqn:Hv; [|done]. by intros [= <- _].
  - intros H. by apply cmake_version_valid in H.
Qed.

Lemma token_chars_are_no_version_chars :
  forallb (λ c, negb (version_char c || Ascii.eqb c newline))
    (PROJECT_VERSION ++ PROJECT_NAME) = true.
Proof. by vm_compute. Qed.

Lemma valid_version_apart v :
  validate_version v = true →
  v ≠ [] ∧ apart v PROJECT_VERSION ∧ apart v PROJECT_NAME.
Proof.
  intros Hv%validate_version_iff.
  assert (Hc : ∀ c, c ∈ v → version_char c || Ascii.eqb c newline = true).
  { intros c Hc. apply orb_true_iff.
    destruct Hv as [Hv|(u & -> & Hu)].
    - left. apply version_shape_chars in Hv.
      rewrite forallb_forall in Hv. by apply Hv, list_elem_of_In.
    - apply elem_of_app in Hc as [Hc|Hc%list_elem_of_singleton].
      + left. apply version_shape_chars in Hu.
        rewrite forallb_forall in Hu. by apply Hu, list_elem_of_In.
      + right. subst c. apply Ascii.eqb_refl. }
  assert (Ht : ∀ c, c ∈ PROJECT_VERSION ++ PROJECT_NAME → c ∉ v).
  { intros c Hin Hcv. pose proof token_chars_are_no_version_chars as Hall.
    rewrite forallb_forall in Hall.
    specialize (Hall c (proj1 (list_elem_of_In _ _) Hin)).
    by rewrite (Hc c Hcv) in Hall. }
  split; [|split].
  - destruct Hv as [Hv|(u & -> & Hu)]; [by apply version_shape_not_nil|].
    by destruct u.
  - intros c Hcv Hct. apply (Ht c); [|done]. apply elem_of_app. by left.
  - intros c Hcv Hct. apply (Ht c); [|done]. apply elem_of_app. by right.
Qed.

Lemma clear_name_apart n :
  forallb (λ c, negb (token_char c)) n = true →
  apart n PROJECT_VERSION ∧ apart n PROJECT_NAME.
Proof.
  rewrite forallb_forall. intros H.
  split; intros c Hc%list_elem_of_In Ht; specialize (H c Hc);
    unfold token_char in H; apply negb_true_iff, orb_false_iff in H as [H1 H2].
  - by apply bool_decide_eq_false in H1.
  - by apply bool_decide_eq_false in H2.
Qed.

Lemma tokens_not_nil : PROJECT_VERSION ≠ [] ∧ PROJECT_NAME ≠ [].
Proof. done. Qed.

(** The text written has no placeholder left when the version is one the
    script resolves and the name cannot bring one in. *)
Lemma patched_has_no_token v n text :
  validate_version v = true → n ≠ [] →
  ¬ occurs PROJECT_NAME text
  ∨ forallb (λ c, negb (token_char c)) n = true →
  ¬ occurs PROJECT_VERSION (patched v n text)
  ∧ ¬ occurs PROJECT_NAME (patched v n text).
Proof.
  intros (Hv & HvV & HvN)%valid_version_apart Hn Hcond.
  destruct tokens_not_nil as [HV HN]. unfold patched.
  pose proof (replace_leaves_no_occurrence PROJECT_VERSION v text HV Hv HvV)
    as H1.
  destruct Hcond as [Hno|(HnV & HnN)%clear_name_apart].
  - rewrite (replace_no_occurrence PROJECT_NAME); [|done|].
    + split; [done|]. intros H. apply Hno.
      by apply (replace_makes_no_occurrence _ PROJECT_VERSION v text).
    + intros H. apply Hno.
      by apply (replace_makes_no_occurrence _ PROJECT_VERSION v text).
  - split; [|by apply replace_leaves_no_occurrence].
    intros H. apply H1.
    by apply (replace_makes_no_occurrence _ PROJECT_NAME n).
Qed.

Lemma patched_of_clean v n text :
  ¬ occurs PROJECT_VERSION text → ¬ occurs PROJECT_NAME text →
  patched v n text = text.
Proof.
  intros HV HN. unfold patched.
  rewrite (replace_no_occurrence PROJECT_VERSION) by done.
  by apply replace_no_occurrence.
Qed.

Lemma parse_project_name_ok p w n w2 :
  _parse_project_name p w = (Ok n, w2) →
  ∃ rd, files w !! p = Some rd ∧ n = name_of (data rd) ∧ n ≠ [].
Proof.
  rewrite parse_project_name_run. intros H.
  destruct (files w !! p) as [rd|]; [|done]. simpl in H.
  destruct (readable rd); [|done].
  destruct (is_empty (name_of (data rd))) eqn:He; [done|].
  injection H as <- _. exists rd. split; [done|]. split; [done|].
  by destruct (name_of (data rd)).
Qed.

(** X8.  Patching twice is patching once, when no placeholder can come
    back: after a patch that went through of a target other than the two
    descriptors, whose text had no [%PROJECT_NAME%] or whose project name
    has no character of the placeholders, the target has neither
    placeholder left, and a second patch goes through and leaves every
    file as the first one left it. *)
Theorem patch_twice_is_patch_once (tgt : path) (ver : option str)
    (w w' : world) :
  tgt ≠ "README.md"%string → tgt ≠ "CMakeLists.txt"%string →
  update_doxyfile tgt ver w = (Ok (), w') →
  no_token_comes_back tgt w →
  (∃ nd', files w' !! tgt = Some nd'
     ∧ ¬ occurs PROJECT_VERSION (data nd')
     ∧ ¬ occurs PROJECT_NAME (data nd'))
  ∧ fst (update_doxyfile tgt ver w') = Ok ()
  ∧ files (snd (update_doxyfile tgt ver w')) = files w'.
Proof.
  intros Hreadme Hcmake Hrun Hcond.
  destruct (update_doxyfile_outcome tgt ver w)
    as [(e & w0 & He & _)|(v & n & nd & w1 & w2 & Hv & Hn & Hf & Hr & Hw
                            & Hok)]; [congruence|].
  rewrite Hrun in Hok. injection Hok as ->.
  pose proof (resolve_version_unchanged ver w) as [Hf1 _].
  rewrite Hv in Hf1. simpl in Hf1.
  destruct (parse_project_name_ok _ _ _ _ Hn) as (rd & Hrd & Hname & Hne).
  rewrite Hf1 in Hrd.
  set (text := patched v n (data nd)).
  assert (Hclean : ¬ occurs PROJECT_VERSION text ∧ ¬ occurs PROJECT_NAME text).
  { apply patched_has_no_token; [by apply resolved_version_valid in Hv|done|].
    destruct Hcond as [(nd0 & Hnd0 & Hno)|(rd0 & Hrd0 & Hcl)].
    - left. rewrite Hf in Hnd0. by injection Hnd0 as <-.
    - right. rewrite Hrd in Hrd0. injection Hrd0 as <-. by rewrite Hname. }
  split.
  { exists (regular text). simpl. by rewrite lookup_insert_eq. }
  set (w' := patched_world tgt text w w2).
  assert (Hv' : fst (resolve_version ver w') = Ok v).
  { rewrite (resolve_version_local ver w w'), Hv; [done|].
    simpl. by rewrite lookup_insert_ne. }
  pose proof (resolve_version_unchanged ver w') as [Hf1' _].
  destruct (resolve_version ver w') as [r1 w1'] eqn:Hres'. simpl in *.
  subst r1.
  assert (Hn' : fst (_parse_project_name "README.md" w1') = Ok n).
  { destruct (parse_project_name_local "README.md" w1) as (_ & _ & Hloc).
    rewrite (Hloc w1'), Hn; [done|].
    rewrite Hf1', Hf1. simpl. by rewrite lookup_insert_ne. }
  destruct (_parse_project_name "README.md" w1') as [r2 w2'] eqn:Hname'.
  simpl in Hn'. subst r2.
  rewrite (update_doxyfile_ok tgt ver w' v n (regular text) w1' w2');
    try done; [|simpl; by rewrite lookup_insert_eq].
  simpl. split; [done|].
  destruct Hclean as [HV HN]. rewrite patched_of_clean by done.
  apply insert_insert_eq.
Qed.

Lemma patch_twice_is_patch_once_witness :
  (∃ nd', files (snd (update_doxyfile "Doxyfile" None
                        (world_of
                           [("CMakeLists.txt"%string, Claims.cmake_plain);
                            ("README.md"%string, L "# keyple-less");
                            ("Doxyfile"%string, Claims.doxyfile_demo)])))
            !! "Doxyfile"%string = Some nd'
     ∧ ¬ occurs PROJECT_VERSION (data nd')
     ∧ ¬ occurs PROJECT_NAME (data nd'))
  ∧ fst (update_doxyfile "Doxyfile" None
           (snd (update_doxyfile "Doxyfile" None
                   (world_of
                      [("CMakeLists.txt"%string, Claims.cmake_plain);
                       ("README.md"%string, L "# keyple-less");
                       ("Doxyfile"%string, Claims.doxyfile_demo)]))))
    = Ok ()
  ∧ files (snd (update_doxyfile "Doxyfile" None
                  (snd (update_doxyfile "Doxyfile" None
                          (world_of
                             [("CMakeLists.txt"%string, Claims.cmake_plain);
                              ("README.md"%string, L "# keyple-less");
                              ("Doxyfile"%string, Claims.doxyfile_demo)])))))
    = files (snd (update_doxyfile "Doxyfile" None
                    (world_of
                       [("CMakeLists.txt"%string, Claims.cmake_plain);
                        ("README.md"%string, L "# keyple-less");
                        ("Doxyfile"%string, Claims.doxyfile_demo)]))).
Proof.
  apply (patch_twice_is_patch_once "Doxyfile" None
           (world_of [("CMakeLists.txt"%string, Claims.cmake_plain);
                      ("README.md"%string, L "# keyple-less");
                      ("Doxyfile"%string, Claims.doxyfile_demo)])).
  - discriminate.
  - discriminate.
  - vm_compute. reflexivity.
  - right. exists (regular (L "# keyple-less")).
    split; vm_compute; reflexivity.
Defined.

(** *** X9 *)

(** X9.  On parsed arguments the script exits with status 0 or 1: with 0
    exactly when the version and the name resolve and the target can be
    read and written, and then the target, and no other file, has a new
    text; with 1 otherwise, and then no file has changed. *)
Theorem main_exit_status (tgt : path) (ver : option str) (w : world) :
  (fst (main tgt ver w) = 0 ∨ fst (main tgt ver w) = 1)
  ∧ (fst (main tgt ver w) = 0
     ↔ version_resolves ver w ∧ name_resolves "README.md" w
       ∧ ∃ nd, files w !! tgt = Some nd ∧ readable nd = true
           ∧ writable nd = true)
  ∧ (fst (main tgt ver w) = 0 →
       ∃ s, files (snd (main tgt ver w)) = <[tgt := regular s]> (files w))
  ∧ (fst (main tgt ver w) = 1 → files (snd (main tgt ver w)) = files w).
Proof.
  pose proof (update_doxyfile_ok_iff tgt ver w) as Hiff.
  unfold main.
  destruct (update_doxyfile_outcome tgt ver w)
    as [(e & w' & He & Hu)|(v & n & nd & w1 & w2 & _ & _ & _ & _ & _ & Hok)].
  - rewrite He in *. simpl in *. split; [by right|]. split.
    + rewrite <- Hiff. split; [done|done].
    + split; [done|]. done.
  - rewrite Hok in *. simpl in *. split; [by left|]. split.
    + by rewrite <- Hiff.
    + split; [by eexists|done].
Qed.

Lemma main_exit_status_witness :
  (fst (main "Doxyfile" (Some (L "bad")) Claims.demo_world) = 0
   ∨ fst (main "Doxyfile" (Some (L "bad")) Claims.demo_world) = 1)
  ∧ (fst (main "Doxyfile" (Some (L "bad")) Claims.demo_world) = 0
     ↔ version_resolves (Some (L "bad")) Claims.demo_world
       ∧ name_resolves "README.md" Claims.demo_world
       ∧ ∃ nd, files Claims.demo_world !! "Doxyfile"%string = Some nd
           ∧ readable nd = true ∧ writable nd = true)
  ∧ (fst (main "Doxyfile" (Some (L "bad")) Claims.demo_world) = 0 →
       ∃ s, files (snd (main "Doxyfile" (Some (L "bad")) Claims.demo_world))
            = <["Doxyfile"%string := regular s]> (files Claims.demo_world))
  ∧ (fst (main "Doxyfile" (Some (L "bad")) Claims.demo_world) = 1 →
       files (snd (main "Doxyfile" (Some (L "bad")) Claims.demo_world))
       = files Claims.demo_world).
Proof.
  apply (main_exit_status "Doxyfile" (Some (L "bad")) Claims.demo_world).
Defined.

(** *** X10 *)

(** X10.  What [update_doxyfile] does depends on three files only: on two
    worlds that agree on the target, on [README.md] and on
    [CMakeLists.txt], it ends the same way and leaves the target with the
    same text. *)
Theorem update_depends_on_three_files (tgt : path) (ver : option str)
    (w1 w2 : world) :
  files w1 !! tgt = files w2 !! tgt →
  files w1 !! "README.md" = files w2 !! "README.md" →
  files w1 !! "CMakeLists.txt" = files w2 !! "CMakeLists.txt" →
  fst (update_doxyfile tgt ver w1) = fst (update_doxyfile tgt ver w2)
  ∧ files (snd (update_doxyfile tgt ver w1)) !! tgt
    = files (snd (update_doxyfile tgt ver w2)) !! tgt.
Proof.
  intros Ht Hr Hc. rewrite !update_doxyfile_run.
  pose proof (resolve_version_local ver w2 w1 Hc) as Hv.
  pose proof (resolve_version_unchanged ver w1) as [Ea _].
  pose proof (resolve_version_unchanged ver w2) as [Eb _].
  destruct (resolve_version ver w1) as [r1 wa],
    (resolve_version ver w2) as [r2 wb]. simpl in *. subst r2.
  destruct r1 as [v|e]; simpl; [|by rewrite Ea, Eb].
  destruct (parse_project_name_local "README.md" wb) as (_ & _ & Hloc).
  specialize (Hloc wa). rewrite Ea, Eb in Hloc. specialize (Hloc Hr).
  pose proof (parse_project_name_unchanged "README.md" wa) as [Ea' _].
  pose proof (parse_project_name_unchanged "README.md" wb) as [Eb' _].
  destruct (_parse_project_name "README.md" wa) as [r1 wa'],
    (_parse_project_name "README.md" wb) as [r2 wb']. simpl in *. subst r2.
  destruct r1 as [n|e]; simpl; [|by rewrite Ea', Eb', Ea, Eb].
  unfold rewrite_run. rewrite Ea', Eb', Ea, Eb, <- Ht.
  destruct (files w1 !! tgt) as [nd|] eqn:Hnd; simpl;
    [|by rewrite Ea', Eb', Ea, Eb, <- Ht].
  destruct (readable nd); simpl; [|by rewrite Ea', Eb', Ea, Eb, <- Ht].
  destruct (writable nd); simpl; [|by rewrite Ea', Eb', Ea, Eb, <- Ht].
  by rewrite !lookup_insert_eq.
Qed.

Lemma update_depends_on_three_files_witness :
  fst (update_doxyfile "Doxyfile" None Claims.demo_world)
  = fst (update_doxyfile "Doxyfile" None
           (world_of [("CMakeLists.txt"%string, Claims.cmake_plain);
                      ("README.md"%string, Claims.readme_demo);
                      ("Doxyfile"%string, Claims.doxyfile_demo);
                      ("LICENSE"%string, L "Apache")]))
  ∧ files (snd (update_doxyfile "Doxyfile" None Claims.demo_world))
      !! "Doxyfile"%string
    = files (snd (update_doxyfile "Doxyfile" None
                    (world_of [("CMakeLists.txt"%string, Claims.cmake_plain);
                               ("README.md"%string, Claims.readme_demo);
                               ("Doxyfile"%string, Claims.doxyfile_demo);
                               ("LICENSE"%string, L "Apache")])))
      !! "Doxyfile"%string.
Proof.
  apply update_depends_on_three_files; vm_compute; reflexivity.
Defined.

End Extras.
